(** * thrall: the CDP transport and the waits built on it

    A shallow embedding of [src/cdp.ts] (CDPSession), of the wait
    functions of [Page] ([goto], [reload], [waitForNavigation],
    [waitForSelector], [waitForFunction], [waitForResponse],
    [waitForRequest]), of [src/screencast.ts] and of [src/keyboard.ts].

    JavaScript runs one turn at a time: a turn (an inbound frame, a timer
    firing, the synchronous part of a call, the code after an [await])
    runs to completion before the next one starts.  Every turn is a total
    function on the [World] below; an async function is cut at its
    [await]s into the turns it consists of. *)

From Stdlib Require Import ZArith Ascii String List Lia Bool.
From stdpp Require Import base option list gmap strings pretty.

Set Warnings "-register-all".

Local Open Scope string_scope.
Local Open Scope list_scope.
Local Open Scope Z_scope.

(** ** JSON text and the values [JSON.parse] returns *)

Module JSON.

(** A number is kept as its literal, [m * 10^e].  The runtime holds the
    binary64 nearest to the literal: what the code does with a number,
    as a key of [callbacks] or as a condition, goes through [binary64]
    below. *)
Inductive json :=
| JNull
| JBool (b : bool)
| JNum (m e : Z)
| JStr (s : string)
| JArr (items : list json)
| JObj (members : list (string * json)).

Definition dquote : ascii := "034"%char.
Definition backslash : ascii := "092"%char.

Definition code (c : ascii) : Z := Z.of_N (N_of_ascii c).

Definition char_of (z : Z) : ascii := ascii_of_N (Z.to_N z).

Definition is_ws (c : ascii) : bool :=
  (code c =? 32) || (code c =? 9) || (code c =? 10) || (code c =? 13).

Fixpoint skip_ws (s : string) : string :=
  match s with
  | String c rest => if is_ws c then skip_ws rest else s
  | EmptyString => s
  end.

Definition digit (c : ascii) : option Z :=
  let n := code c in
  if (48 <=? n) && (n <=? 57) then Some (n - 48) else None.

Definition hex (c : ascii) : option Z :=
  let n := code c in
  if (48 <=? n) && (n <=? 57) then Some (n - 48)
  else if (65 <=? n) && (n <=? 70) then Some (n - 55)
  else if (97 <=? n) && (n <=? 102) then Some (n - 87)
  else None.

(** [digits s acc n]: the longest run of decimal digits at the head of
    [s], appended to [acc]; [n] counts them. *)
Fixpoint digits (s : string) (acc : Z) (n : Z) : Z * Z * string :=
  match s with
  | String c rest =>
      match digit c with
      | Some d => digits rest (10 * acc + d) (n + 1)
      | None => (acc, n, s)
      end
  | EmptyString => (acc, n, s)
  end.

(** A number literal: an optional minus; [0], or a digit from 1 to 9
    and further digits; an optional fraction (a dot and one or more
    digits); an optional exponent ([e] or [E], a sign, one or more
    digits). *)
Definition parse_int (s : string) : option (Z * string) :=
  match s with
  | String c rest =>
      match digit c with
      | Some 0 => Some (0, rest)
      | Some d => let '(v, _, rest') := digits rest d 1 in Some (v, rest')
      | None => None
      end
  | EmptyString => None
  end.

Definition parse_frac (acc : Z) (s : string) : option (Z * Z * string) :=
  match s with
  | String "." rest =>
      let '(v, n, rest') := digits rest acc 0 in
      if n =? 0 then None else Some (v, n, rest')
  | _ => Some (acc, 0, s)
  end.

Definition parse_exp (s : string) : option (Z * string) :=
  let unsigned (sign : Z) (r : string) :=
    let '(v, n, rest') := digits r 0 0 in
    if n =? 0 then None else Some (sign * v, rest') in
  match s with
  | String c rest =>
      if (code c =? 101) || (code c =? 69) then
        match rest with
        | String "+" r => unsigned 1 r
        | String "-" r => unsigned (-1) r
        | _ => unsigned 1 rest
        end
      else Some (0, s)
  | EmptyString => Some (0, s)
  end.

Definition parse_number (s : string) : option (json * string) :=
  let '(sign, s1) :=
    match s with String "-" r => (-1, r) | _ => (1, s) end in
  '(i, s2) ← parse_int s1;
  '(m, nfrac, s3) ← parse_frac i s2;
  '(e, s4) ← parse_exp s3;
  Some (JNum (sign * m) (e - nfrac), s4).

(** UTF-8 bytes of a code point, the form in which the text of a frame
    holds its characters. *)
Definition utf8 (cp : Z) : string :=
  if cp <? 128 then String (char_of cp) EmptyString
  else if cp <? 2048 then
    String (char_of (192 + cp / 64))
      (String (char_of (128 + cp mod 64)) EmptyString)
  else if cp <? 65536 then
    String (char_of (224 + cp / 4096))
      (String (char_of (128 + (cp / 64) mod 64))
         (String (char_of (128 + cp mod 64)) EmptyString))
  else
    String (char_of (240 + cp / 262144))
      (String (char_of (128 + (cp / 4096) mod 64))
         (String (char_of (128 + (cp / 64) mod 64))
            (String (char_of (128 + cp mod 64)) EmptyString))).

Definition hex4 (a b c d : ascii) : option Z :=
  x ← hex a; y ← hex b; z ← hex c; w ← hex d;
  Some (4096 * x + 256 * y + 16 * z + w).

Definition simple_escape (c : ascii) : option ascii :=
  let n := code c in
  if n =? 34 then Some dquote
  else if n =? 92 then Some backslash
  else if n =? 47 then Some "/"%char
  else if n =? 98 then Some "008"%char
  else if n =? 102 then Some "012"%char
  else if n =? 110 then Some "010"%char
  else if n =? 114 then Some "013"%char
  else if n =? 116 then Some "009"%char
  else None.

(** The characters of a string literal after its opening quote, up to
    the closing one.  A [\uD800-\uDBFF] escape directly followed by a
    [\uDC00-\uDFFF] escape is one code point. *)
Fixpoint parse_chars (s : string) : option (string * string) :=
  match s with
  | EmptyString => None
  | String c rest =>
      if code c =? 34 then Some (EmptyString, rest)
      else if code c <? 32 then None
      else if code c =? 92 then
        match rest with
        | String "u" (String a (String b (String c' (String d rest')))) =>
            hi ← hex4 a b c' d;
            let single :=
              '(str, r) ← parse_chars rest'; Some (utf8 hi +:+ str, r) in
            if (55296 <=? hi) && (hi <=? 56319) then
              match rest' with
              | String bs (String "u"
                  (String a2 (String b2 (String c2 (String d2 rest''))))) =>
                  match hex4 a2 b2 c2 d2 with
                  | Some lo =>
                      if (code bs =? 92) && (56320 <=? lo) && (lo <=? 57343)
                      then
                        '(str, r) ← parse_chars rest'';
                        Some (utf8 (65536 + (hi - 55296) * 1024
                                    + (lo - 56320)) +:+ str, r)
                      else single
                  | None => single
                  end
              | _ => single
              end
            else single
        | String e rest' =>
            ch ← simple_escape e;
            '(str, r) ← parse_chars rest';
            Some (String ch str, r)
        | EmptyString => None
        end
      else
        '(str, r) ← parse_chars rest; Some (String c str, r)
  end.

Section Composite.
(** [value]: the parser of one value, at the nesting depth below. *)
Variable value : string → option (json * string).

(** The rest of an array after its first element: further elements,
    each after a comma, and the closing bracket. *)
Fixpoint parse_elements (n : nat) (acc : list json) (s : string)
  : option (json * string) :=
  match n with
  | O => None
  | S n =>
      match skip_ws s with
      | String "]" rest => Some (JArr (rev acc), rest)
      | String "," rest =>
          '(v, rest') ← value rest;
          parse_elements n (v :: acc) rest'
      | _ => None
      end
  end.

Definition parse_member (s : string) : option (string * json * string) :=
  match skip_ws s with
  | String q rest =>
      if code q =? 34 then
        '(k, r1) ← parse_chars rest;
        match skip_ws r1 with
        | String ":" r2 => '(v, r3) ← value r2; Some (k, v, r3)
        | _ => None
        end
      else None
  | EmptyString => None
  end.

Fixpoint parse_members (n : nat) (acc : list (string * json)) (s : string)
  : option (json * string) :=
  match n with
  | O => None
  | S n =>
      match skip_ws s with
      | String "}" rest => Some (JObj (rev acc), rest)
      | String "," rest =>
          '(k, v, rest') ← parse_member rest;
          parse_members n ((k, v) :: acc) rest'
      | _ => None
      end
  end.
End Composite.

Definition literal (lit : string) (v : json) (s : string)
  : option (json * string) :=
  if String.prefix lit s
  then Some (v, String.substring (String.length lit)
                  (String.length s - String.length lit) s)
  else None.

(** [depth] bounds the nesting of arrays and objects; a text of [n]
    characters nests fewer than [n] deep. *)
Fixpoint parse_value (depth : nat) (s : string) : option (json * string) :=
  match depth with
  | O => None
  | S depth =>
      let s := skip_ws s in
      match s with
      | EmptyString => None
      | String c rest =>
          if code c =? 34 then
            '(str, r) ← parse_chars rest; Some (JStr str, r)
          else if code c =? 91 then
            match skip_ws rest with
            | String "]" r => Some (JArr [], r)
            | _ =>
                '(v, r) ← parse_value depth rest;
                parse_elements (parse_value depth) (String.length r + 1) [v] r
            end
          else if code c =? 123 then
            match skip_ws rest with
            | String "}" r => Some (JObj [], r)
            | _ =>
                '(k, v, r) ← parse_member (parse_value depth) rest;
                parse_members (parse_value depth) (String.length r + 1)
                  [(k, v)] r
            end
          else if code c =? 116 then literal "true" (JBool true) s
          else if code c =? 102 then literal "false" (JBool false) s
          else if code c =? 110 then literal "null" JNull s
          else parse_number s
      end
  end.

(** [JSON.parse(text)]: [None] is the thrown [SyntaxError]. *)
Definition parse (text : string) : option json :=
  '(v, rest) ← parse_value (S (String.length text)) text;
  match skip_ws rest with
  | EmptyString => Some v
  | _ => None
  end.

(** ** Reading a parsed value *)

(** [v.name] on a value other than [null]; [None] is [undefined].  With
    a repeated key the last member wins. *)
Definition get (name : string) (v : json) : option json :=
  match v with
  | JObj members =>
      snd <$> List.find (λ kv, String.eqb (fst kv) name) (rev members)
  | _ => None
  end.

(** ** Numbers as the runtime holds them *)

(** The binary64 nearest to [n / d], ties to even, for [0 <= n] and
    [0 < d]: [(q, p)] for the value [q * 2^p], [None] for Infinity.
    With [2^k <= n / d < 2^(k + 1)], the value is a multiple of [2^p]
    for [p] the larger of [k - 52] and [-1074], the exponent of the
    subnormal numbers; it is Infinity from [2^1024] on. *)
Definition nearest (n d : Z) : option (Z * Z) :=
  if n =? 0 then Some (0, 0)
  else
    let k0 := Z.log2 n - Z.log2 d in
    let below :=
      if 0 <=? k0 then n <? d * 2 ^ k0 else n * 2 ^ (- k0) <? d in
    let k := if below then k0 - 1 else k0 in
    let p := Z.max (k - 52) (-1074) in
    let num := if 0 <=? p then n else n * 2 ^ (- p) in
    let den := if 0 <=? p then d * 2 ^ p else d in
    let q := num / den in
    let r := num mod den in
    let q :=
      if 2 * r <? den then q
      else if den <? 2 * r then q + 1
      else if Z.even q then q else q + 1 in
    if (0 <=? p) && (2 ^ 1024 <=? q * 2 ^ p) then None else Some (q, p).

(** The magnitude of the number that [JSON.parse] reads the literal
    [m * 10^e] as; its sign is that of [m]. *)
Definition binary64 (m e : Z) : option (Z * Z) :=
  if 0 <=? e then nearest (Z.abs m * 10 ^ e) 1
  else nearest (Z.abs m) (10 ^ (- e)).

(** ToBoolean: of the numbers, 0 is falsy, and so is a literal that is
    read as 0. *)
Definition truthy (v : option json) : bool :=
  match v with
  | None | Some JNull => false
  | Some (JBool b) => b
  | Some (JNum m e) =>
      match binary64 m e with
      | Some (q, _) => negb (q =? 0)
      | None => true
      end
  | Some (JStr s) => negb (String.eqb s EmptyString)
  | Some (JArr _) | Some (JObj _) => true
  end.

(** The integer that the number read from a literal is, if it is one. *)
Definition as_integer (v : json) : option Z :=
  match v with
  | JNum m e =>
      match binary64 m e with
      | Some (q, p) =>
          if 0 <=? p then Some (Z.sgn m * (q * 2 ^ p))
          else if q mod 2 ^ (- p) =? 0 then Some (Z.sgn m * (q / 2 ^ (- p)))
          else None
      | None => None
      end
  | _ => None
  end.

End JSON.

(** ** The heap: promises, function objects, timers *)

Import JSON.

(** What is thrown or rejected with. *)
Inductive exn :=
| Error (message : string)              (* new Error("...") *)
| ErrorOf (message : option json)       (* new Error(v), v read off a frame *)
| SyntaxError                           (* thrown by JSON.parse *)
| TypeError.                            (* a property read of null or undefined,
                                           a call of what is no function *)

(** What a promise is fulfilled with. *)
Inductive value :=
| VUndefined
| VResult (result : option json)                  (* msg.result *)
| VResponse (url status headers : option json)    (* { url, status, headers } *)
| VRequest (url method : option json).            (* { url, method } *)

Inductive promise :=
| Pending
| Fulfilled (v : value)
| Rejected (e : exn).

(** The first argument of waitForResponse and waitForRequest.  A RegExp
    and a caller's predicate are applied to the url as the event carries
    it; both are taken to be pure. *)
Inductive matcher :=
| MString (s : string)
| MRegExp (test : option json → bool)
| MPredicate (f : option json → bool).

(** [waitForResponse] and [waitForRequest] are the same function but
    for the event they listen to, the member of its params they read,
    what they resolve with and the text of their timeout error. *)
Inductive traffic := Response | Request.

(** The function objects the repository hands to [on]; a function object
    is known by its index in [functions]. *)
Inductive closure :=
| LoadHandler (eventName : string) (resolve : nat)
| TrafficHandler (kind : traffic) (urlOrPredicate : matcher) (timer : Z)
    (settle : nat)
| FrameHandler.

(** The function objects it hands to [setTimeout]. *)
Inductive timer_callback :=
| RejectAfter (reject : nat) (e : exn)
| TrafficTimeout (kind : traffic) (handler : nat) (reject : nat).

(** [{ id, method, params }] as written to the socket. *)
Record outbound := {
  out_id : Z;
  out_method : string;
  out_params : list (string * option json);
}.

(** The state of [this.ready]. *)
Inductive ready_state :=
| Connecting
| Opened
| Failed (e : exn).

Record ScreencastFrame := {
  frame_data : string;          (* the base64 text the Buffer decodes *)
  frame_timestamp : Z;
  frame_metadata : option json;
}.

(** The session of one page, what it has on the heap, and the one
    Screencast that records it. *)
Record World := {
  (* CDPSession *)
  id_ : Z;                                      (* this.id *)
  callbacks : gmap Z nat;                       (* id -> { resolve, reject } *)
  eventListeners : gmap string (list nat);      (* event -> Set, in order *)
  ready : ready_state;
  awaiting_ready : list (nat * string * list (string * option json));
  (* the WebSocket *)
  terminated : bool;
  sent : list outbound;
  (* heap *)
  promises : list promise;
  functions : list closure;
  timers : gmap Z (timer_callback * Z);
  next_timer : Z;
  (* Screencast *)
  frames : list ScreencastFrame;
  recording : bool;
  frameHandler : option nat;
  (* Date.now() *)
  now : Z;
}.

(** Field updates. *)
Definition set_id (x : Z) (w : World) : World :=
  {| id_ := x; callbacks := callbacks w; eventListeners := eventListeners w;
     ready := ready w; awaiting_ready := awaiting_ready w;
     terminated := terminated w; sent := sent w; promises := promises w;
     functions := functions w; timers := timers w;
     next_timer := next_timer w; frames := frames w;
     recording := recording w; frameHandler := frameHandler w;
     now := now w |}.

Definition set_callbacks (x : gmap Z nat) (w : World) : World :=
  {| id_ := id_ w; callbacks := x; eventListeners := eventListeners w;
     ready := ready w; awaiting_ready := awaiting_ready w;
     terminated := terminated w; sent := sent w; promises := promises w;
     functions := functions w; timers := timers w;
     next_timer := next_timer w; frames := frames w;
     recording := recording w; frameHandler := frameHandler w;
     now := now w |}.

Definition set_eventListeners
    (x : gmap string (list nat)) (w : World)
  : World :=
  {| id_ := id_ w; callbacks := callbacks w; eventListeners := x;
     ready := ready w; awaiting_ready := awaiting_ready w;
     terminated := terminated w; sent := sent w; promises := promises w;
     functions := functions w; timers := timers w;
     next_timer := next_timer w; frames := frames w;
     recording := recording w; frameHandler := frameHandler w;
     now := now w |}.

Definition set_ready (x : ready_state) (w : World) : World :=
  {| id_ := id_ w; callbacks := callbacks w;
     eventListeners := eventListeners w; ready := x;
     awaiting_ready := awaiting_ready w; terminated := terminated w;
     sent := sent w; promises := promises w; functions := functions w;
     timers := timers w; next_timer := next_timer w; frames := frames w;
     recording := recording w; frameHandler := frameHandler w;
     now := now w |}.

Definition set_awaiting_ready
    (x : list (nat * string * list (string * option json))) (w : World)
  : World :=
  {| id_ := id_ w; callbacks := callbacks w;
     eventListeners := eventListeners w; ready := ready w;
     awaiting_ready := x; terminated := terminated w; sent := sent w;
     promises := promises w; functions := functions w; timers := timers w;
     next_timer := next_timer w; frames := frames w;
     recording := recording w; frameHandler := frameHandler w;
     now := now w |}.

Definition set_terminated (x : bool) (w : World) : World :=
  {| id_ := id_ w; callbacks := callbacks w;
     eventListeners := eventListeners w; ready := ready w;
     awaiting_ready := awaiting_ready w; terminated := x; sent := sent w;
     promises := promises w; functions := functions w; timers := timers w;
     next_timer := next_timer w; frames := frames w;
     recording := recording w; frameHandler := frameHandler w;
     now := now w |}.

Definition set_sent (x : list outbound) (w : World) : World :=
  {| id_ := id_ w; callbacks := callbacks w;
     eventListeners := eventListeners w; ready := ready w;
     awaiting_ready := awaiting_ready w; terminated := terminated w;
     sent := x; promises := promises w; functions := functions w;
     timers := timers w; next_timer := next_timer w; frames := frames w;
     recording := recording w; frameHandler := frameHandler w;
     now := now w |}.

Definition set_promises (x : list promise) (w : World) : World :=
  {| id_ := id_ w; callbacks := callbacks w;
     eventListeners := eventListeners w; ready := ready w;
     awaiting_ready := awaiting_ready w; terminated := terminated w;
     sent := sent w; promises := x; functions := functions w;
     timers := timers w; next_timer := next_timer w; frames := frames w;
     recording := recording w; frameHandler := frameHandler w;
     now := now w |}.

Definition set_functions (x : list closure) (w : World) : World :=
  {| id_ := id_ w; callbacks := callbacks w;
     eventListeners := eventListeners w; ready := ready w;
     awaiting_ready := awaiting_ready w; terminated := terminated w;
     sent := sent w; promises := promises w; functions := x;
     timers := timers w; next_timer := next_timer w; frames := frames w;
     recording := recording w; frameHandler := frameHandler w;
     now := now w |}.

Definition set_timers (x : gmap Z (timer_callback * Z)) (w : World) : World :=
  {| id_ := id_ w; callbacks := callbacks w;
     eventListeners := eventListeners w; ready := ready w;
     awaiting_ready := awaiting_ready w; terminated := terminated w;
     sent := sent w; promises := promises w; functions := functions w;
     timers := x; next_timer := next_timer w; frames := frames w;
     recording := recording w; frameHandler := frameHandler w;
     now := now w |}.

Definition set_next_timer (x : Z) (w : World) : World :=
  {| id_ := id_ w; callbacks := callbacks w;
     eventListeners := eventListeners w; ready := ready w;
     awaiting_ready := awaiting_ready w; terminated := terminated w;
     sent := sent w; promises := promises w; functions := functions w;
     timers := timers w; next_timer := x; frames := frames w;
     recording := recording w; frameHandler := frameHandler w;
     now := now w |}.

Definition set_frames (x : list ScreencastFrame) (w : World) : World :=
  {| id_ := id_ w; callbacks := callbacks w;
     eventListeners := eventListeners w; ready := ready w;
     awaiting_ready := awaiting_ready w; terminated := terminated w;
     sent := sent w; promises := promises w; functions := functions w;
     timers := timers w; next_timer := next_timer w; frames := x;
     recording := recording w; frameHandler := frameHandler w;
     now := now w |}.

Definition set_recording (x : bool) (w : World) : World :=
  {| id_ := id_ w; callbacks := callbacks w;
     eventListeners := eventListeners w; ready := ready w;
     awaiting_ready := awaiting_ready w; terminated := terminated w;
     sent := sent w; promises := promises w; functions := functions w;
     timers := timers w; next_timer := next_timer w; frames := frames w;
     recording := x; frameHandler := frameHandler w; now := now w |}.

Definition set_frameHandler (x : option nat) (w : World) : World :=
  {| id_ := id_ w; callbacks := callbacks w;
     eventListeners := eventListeners w; ready := ready w;
     awaiting_ready := awaiting_ready w; terminated := terminated w;
     sent := sent w; promises := promises w; functions := functions w;
     timers := timers w; next_timer := next_timer w; frames := frames w;
     recording := recording w; frameHandler := x; now := now w |}.

Definition set_now (x : Z) (w : World) : World :=
  {| id_ := id_ w; callbacks := callbacks w;
     eventListeners := eventListeners w; ready := ready w;
     awaiting_ready := awaiting_ready w; terminated := terminated w;
     sent := sent w; promises := promises w; functions := functions w;
     timers := timers w; next_timer := next_timer w; frames := frames w;
     recording := recording w; frameHandler := frameHandler w; now := x |}.

Definition new_promise (w : World) : nat * World :=
  (length (promises w), set_promises (promises w ++ [Pending]) w).

(** Calling the [resolve] or [reject] of a promise: only the first call
    has an effect. *)
Definition settle (p : nat) (o : promise) (w : World) : World :=
  match promises w !! p with
  | Some Pending => set_promises (<[p := o]> (promises w)) w
  | _ => w
  end.

Definition resolve (p : nat) (v : value) : World → World :=
  settle p (Fulfilled v).

Definition reject (p : nat) (e : exn) : World → World :=
  settle p (Rejected e).

Definition new_function (c : closure) (w : World) : nat * World :=
  (length (functions w), set_functions (functions w ++ [c]) w).

Definition setTimeout (cb : timer_callback) (delay : Z) (w : World)
  : Z * World :=
  (next_timer w,
   set_next_timer (next_timer w + 1)
     (set_timers (<[next_timer w := (cb, delay)]> (timers w)) w)).

Definition clearTimeout (t : Z) (w : World) : World :=
  set_timers (delete t (timers w)) w.

(** A JavaScript [Set] of function objects: insertion order, no
    duplicates. *)
Definition set_add (f : nat) (s : list nat) : list nat :=
  if decide (f ∈ s) then s else s ++ [f].

Definition set_delete (f : nat) (s : list nat) : list nat :=
  filter (λ g, g ≠ f) s.

(** ** CDPSession ([src/cdp.ts]) *)

(** [this.ws.send(text)]: a socket that has been terminated discards
    what is written to it. *)
Definition ws_send (f : outbound) (w : World) : World :=
  if terminated w then w else set_sent (sent w ++ [f]) w.

(** The body of [send] after [await this.ready]; [p] is the promise the
    call returned, which settles as the promise made here does. *)
Definition send_body (p : nat) (method : string)
    (params : list (string * option json)) (w : World) : World :=
  let id := id_ w + 1 in
  ws_send {| out_id := id; out_method := method; out_params := params |}
    (set_callbacks (<[id := p]> (callbacks w)) (set_id id w)).

(** [send(method, params)] with the end of the turn in which it is
    called.  While the socket is connecting the call stays at [await
    this.ready]; [onopen] and [onerror] take it up.  Where [ready] is
    settled, the [await] still yields, and the call goes on when the
    code that called it has come to the end of its turn: here that end
    comes right after the call.  [send_call] and [end_of_turn] below are
    the two halves, for a turn in which more is done after the call. *)
Definition send (method : string) (params : list (string * option json))
    (w : World) : nat * World :=
  let '(p, w) := new_promise w in
  match ready w with
  | Opened => (p, send_body p method params w)
  | Connecting =>
      (p, set_awaiting_ready (awaiting_ready w ++ [(p, method, params)]) w)
  | Failed e => (p, reject p e w)
  end.

(** [send(method, params)] up to its [await this.ready], at which every
    call yields, also where [ready] is settled: the call has the promise
    it returns, and waits. *)
Definition send_call (method : string)
    (params : list (string * option json)) (w : World) : nat * World :=
  let '(p, w) := new_promise w in
  (p, set_awaiting_ready (awaiting_ready w ++ [(p, method, params)]) w).

(** The end of a turn: where [ready] is settled, the calls that wait at
    [await this.ready] go on, in the order in which they were made. *)
Definition end_of_turn (w : World) : World :=
  match ready w with
  | Connecting => w
  | Opened =>
      foldl (λ acc '(p, method, params), send_body p method params acc)
        (set_awaiting_ready [] w) (awaiting_ready w)
  | Failed e =>
      foldl (λ acc '(p, _, _), reject p e acc)
        (set_awaiting_ready [] w) (awaiting_ready w)
  end.

(** [this.ws.onopen = () => resolve()] *)
Definition onopen (w : World) : World :=
  match ready w with
  | Connecting =>
      foldl (λ acc '(p, method, params), send_body p method params acc)
        (set_awaiting_ready [] (set_ready Opened w)) (awaiting_ready w)
  | _ => w
  end.

(** [this.ws.onerror = (e) => reject(new Error(`WebSocket error: ${e}`))] *)
Definition onerror (e : string) (w : World) : World :=
  match ready w with
  | Connecting =>
      let err := Error ("WebSocket error: " +:+ e) in
      foldl (λ acc '(p, _, _), reject p err acc)
        (set_awaiting_ready [] (set_ready (Failed err) w)) (awaiting_ready w)
  | _ => w
  end.

Definition on (event : string) (callback : nat) (w : World) : World :=
  let listeners := default [] (eventListeners w !! event) in
  set_eventListeners
    (<[event := set_add callback listeners]> (eventListeners w)) w.

Definition off (event : string) (callback : nat) (w : World) : World :=
  match eventListeners w !! event with
  | Some listeners =>
      set_eventListeners
        (<[event := set_delete callback listeners]> (eventListeners w)) w
  | None => w
  end.

Definition close (w : World) : World :=
  let w :=
    foldr (λ slot acc, reject slot.2 (Error "Connection closed") acc) w
      (map_to_list (callbacks w)) in
  set_terminated true (set_eventListeners ∅ (set_callbacks ∅ w)).

(** [url.includes(s)] on a string. *)
Fixpoint includes (s url : string) : bool :=
  String.prefix s url
  || match url with
     | String _ rest => includes s rest
     | EmptyString => false
     end.

(** Whether the url of an event matches; [None] when the test throws a
    TypeError ([includes] exists on strings and arrays only). *)
Definition matches (m : matcher) (url : option json) : option bool :=
  match m with
  | MString s =>
      match url with
      | Some (JStr u) => Some (includes s u)
      | Some (JArr items) =>
          Some (existsb (λ v, match v with
                              | JStr x => String.eqb x s
                              | _ => false
                              end) items)
      | _ => None
      end
  | MRegExp test => Some (test url)
  | MPredicate f => Some (f url)
  end.

(** [Buffer.from(params.data, "base64")] on the string the event
    carries; [None] where the call throws its TypeError, as it does for
    a number, a boolean, [null] and [undefined].  What it makes of an
    array or an object is left out: the data of a frame is a string. *)
Definition buffer_from (data : option json) : option string :=
  match data with
  | Some (JStr s) => Some s
  | _ => None
  end.

(** The members of [v], or [None] where reading a property of [v]
    throws. *)
Definition object_of (v : option json) : option json :=
  match v with
  | None | Some JNull => None
  | Some o => Some o
  end.

Definition traffic_event (kind : traffic) : string :=
  match kind with
  | Response => "Network.responseReceived"
  | Request => "Network.requestWillBeSent"
  end.

(** [params.response], [params.request] *)
Definition member (kind : traffic) : string :=
  match kind with
  | Response => "response"
  | Request => "request"
  end.

(** [resolve({ url, status, headers })], [resolve({ url, method })] *)
Definition resolution (kind : traffic) (r : json) : value :=
  match kind with
  | Response => VResponse (get "url" r) (get "status" r) (get "headers" r)
  | Request => VRequest (get "url" r) (get "method" r)
  end.

Definition traffic_timeout (kind : traffic) : exn :=
  match kind with
  | Response => Error "Timeout waiting for response"
  | Request => Error "Timeout waiting for request"
  end.

(** Calling the function object [f] with [params]. *)
Definition invoke (f : nat) (params : option json) (w : World)
  : World * option exn :=
  match functions w !! f with
  | None => (w, Some TypeError)
  | Some (LoadHandler eventName p) =>
      (resolve p VUndefined (off eventName f w), None)
  | Some (TrafficHandler kind m timer p) =>
      match object_of params ≫= λ ps, object_of (get (member kind) ps) with
      | None => (w, Some TypeError)
      | Some r =>
          match matches m (get "url" r) with
          | None => (w, Some TypeError)
          | Some false => (w, None)
          | Some true =>
              (resolve p (resolution kind r)
                 (off (traffic_event kind) f (clearTimeout timer w)),
               None)
          end
      end
  | Some FrameHandler =>
      (* an async function: what it throws rejects its own promise.  Its
         [send] goes on after [await this.ready], once the listeners
         called after it have run; none of them reads what it writes, so
         it is run here *)
      if recording w then
        match object_of params with
        | Some ps =>
            match buffer_from (get "data" ps) with
            | Some data =>
                let frame := {| frame_data := data;
                                frame_timestamp := now w;
                                frame_metadata := get "metadata" ps |} in
                let w := set_frames (frames w ++ [frame]) w in
                ((send "Page.screencastFrameAck"
                    [("sessionId", get "sessionId" ps)] w).2, None)
            | None => (w, None)
            end
        | None => (w, None)
        end
      else (w, None)
  end.

(** [for (const listener of listeners) listener(msg.params)].  The loop
    walks the Set as it is at each step: [snapshot] holds the entries
    that were there when the loop began, and one that has been deleted
    by the time it is reached is passed over.  No function object of
    [closure] adds a listener, so nothing joins the Set meanwhile.  An
    exception leaves the loop. *)
Fixpoint for_of (snapshot : list nat) (event : string)
    (params : option json) (w : World) : World * option exn :=
  match snapshot with
  | [] => (w, None)
  | listener :: rest =>
      if decide (listener ∈ default [] (eventListeners w !! event)) then
        match invoke listener params w with
        | (w, None) => for_of rest event params w
        | thrown => thrown
        end
      else for_of rest event params w
  end.

(** [this.callbacks.get(msg.id)]: the keys are the integers [send] has
    handed out, so only a number that denotes one of them finds a slot. *)
Definition callbacks_get (id : json) (w : World) : option (Z * nat) :=
  k ← as_integer id; p ← callbacks w !! k; Some (k, p).

(** [handleMessage] after [JSON.parse]. *)
Definition dispatch (msg : json) (w : World) : World * option exn :=
  match msg with
  | JNull => (w, Some TypeError)
  | _ =>
      match get "id" msg with
      | Some id =>
          match callbacks_get id w with
          | Some (k, callback) =>
              let w := set_callbacks (delete k (callbacks w)) w in
              let error := get "error" msg in
              if truthy error then
                (reject callback (ErrorOf (error ≫= get "message")) w, None)
              else (resolve callback (VResult (get "result" msg)) w, None)
          | None => (w, None)
          end
      | None =>
          match get "method" msg with
          | Some (JStr method) =>
              if String.eqb method EmptyString then (w, None)
              else
                match eventListeners w !! method with
                | Some listeners =>
                    for_of listeners method (get "params" msg) w
                | None => (w, None)
                end
          | _ => (w, None)
          end
      end
  end.

(** [handleMessage(data)]: the final state, and the exception if one
    leaves the function.  [this.ws.onmessage] calls it with no handler
    around it. *)
Definition handleMessage (data : string) (w : World) : World * option exn :=
  match JSON.parse data with
  | None => (w, Some SyntaxError)
  | Some msg => dispatch msg w
  end.

Definition onmessage (data : string) (w : World) : World :=
  (handleMessage data w).1.

(** A timer that is due: its callback runs unless it was cleared. *)
Definition fire_timer (t : Z) (w : World) : World :=
  match timers w !! t with
  | None => w
  | Some (cb, _) =>
      let w := set_timers (delete t (timers w)) w in
      match cb with
      | RejectAfter p e => reject p e w
      | TrafficTimeout kind handler p =>
          reject p (traffic_timeout kind) (off (traffic_event kind) handler w)
      end
  end.

(** A session just constructed, nothing else on the heap. *)
Definition new_world : World :=
  {| id_ := 0; callbacks := ∅; eventListeners := ∅; ready := Connecting;
     awaiting_ready := []; terminated := false; sent := [];
     promises := []; functions := []; timers := ∅; next_timer := 1;
     frames := []; recording := false; frameHandler := None; now := 0 |}.

(** ** Page: the navigation waits *)

(** The outcome of a turn that resumes an async function. *)
Inductive resumed (A : Type) :=
| Suspended                             (* what it awaits is still pending *)
| Returns (a : A) (w : World)
| Throws (e : exn) (w : World).
Arguments Suspended {A}.
Arguments Returns {A}.
Arguments Throws {A}.

Inductive waitUntil := load | domcontentloaded | networkidle.

Record NavigateOptions := {
  nav_timeout : Z;
  nav_waitUntil : waitUntil;
}.

(** [{ timeout = 30000, waitUntil = "load" } = options] *)
Definition default_options : NavigateOptions :=
  {| nav_timeout := 30000; nav_waitUntil := load |}.

Definition eventName (options : NavigateOptions) : string :=
  match nav_waitUntil options with
  | domcontentloaded => "Page.domContentEventFired"
  | _ => "Page.loadEventFired"
  end.

(** [new Promise((resolve) => { const handler = ...; this.cdp.on(eventName,
    handler) })]: the promise and the handler. *)
Definition loadPromise (event : string) (w : World) : nat * nat * World :=
  let '(p, w) := new_promise w in
  let '(handler, w) := new_function (LoadHandler event p) w in
  (p, handler, on event handler w).

(** [new Promise((_, reject) => { timer = setTimeout(() => reject(new
    Error(message)), timeout) })]: the promise and the timer. *)
Definition timeoutPromise (message : string) (timeout : Z) (w : World)
  : nat * Z * World :=
  let '(p, w) := new_promise w in
  let '(timer, w) := setTimeout (RejectAfter p (Error message)) timeout w in
  (p, timer, w).

(** [await Promise.race([loadPromise, timeoutPromise])] with the timer to
    clear after it. *)
Record race := {
  race_load : nat;
  race_timeout : nat;
  race_timer : Z;
}.

(** The function up to the [await] of the command it sends. *)
Record navigation := {
  nav_load : nat;
  nav_command : nat;
  nav_message : string;
  nav_delay : Z;
}.

(** How [Promise.race] has settled.  The code after the [await] runs at
    the end of the turn that settles the race, when one of the two
    promises has settled; where the load event came before the race
    was set up, the load promise is the one that has. *)
Definition raced (r : race) (w : World) : option promise :=
  match promises w !! race_load r with
  | Some (Fulfilled v) => Some (Fulfilled v)
  | _ =>
      match promises w !! race_timeout r with
      | Some (Rejected e) => Some (Rejected e)
      | _ => None
      end
  end.

(** [try { await Promise.race(...) } finally { clearTimeout(timer!) }] *)
Definition after_race (r : race) (w : World) : resumed unit :=
  match raced r w with
  | Some (Fulfilled _) => Returns () (clearTimeout (race_timer r) w)
  | Some (Rejected e) => Throws e (clearTimeout (race_timer r) w)
  | _ => Suspended
  end.

Definition navigation_timeout (timeout : Z) : string :=
  "Navigation timeout after " +:+ pretty timeout +:+ "ms".

Definition reload_timeout (timeout : Z) : string :=
  "Reload timeout after " +:+ pretty timeout +:+ "ms".

(** [waitForNavigation(options)] up to its [await]. *)
Definition waitForNavigation (options : NavigateOptions) (w : World)
  : race * World :=
  let '(lp, _, w) := loadPromise (eventName options) w in
  let '(tp, timer, w) :=
    timeoutPromise (navigation_timeout (nav_timeout options))
      (nav_timeout options) w in
  ({| race_load := lp; race_timeout := tp; race_timer := timer |}, w).

(** [goto(url, options)] up to [await this.cdp.send("Page.navigate", ...)]. *)
Definition goto (url : string) (options : NavigateOptions) (w : World)
  : navigation * World :=
  let '(lp, _, w) := loadPromise (eventName options) w in
  let '(command, w) := send "Page.navigate" [("url", Some (JStr url))] w in
  ({| nav_load := lp; nav_command := command;
      nav_message := navigation_timeout (nav_timeout options);
      nav_delay := nav_timeout options |}, w).

(** [reload(options)] up to [await this.cdp.send("Page.reload")]. *)
Definition reload (options : NavigateOptions) (w : World)
  : navigation * World :=
  let '(lp, _, w) := loadPromise (eventName options) w in
  let '(command, w) := send "Page.reload" [] w in
  ({| nav_load := lp; nav_command := command;
      nav_message := reload_timeout (nav_timeout options);
      nav_delay := nav_timeout options |}, w).

(** [goto] and [reload] once the command has been answered: a rejection
    leaves the function; otherwise the timer is set and the race
    awaited. *)
Definition after_command (n : navigation) (w : World) : resumed race :=
  match promises w !! nav_command n with
  | Some (Rejected e) => Throws e w
  | Some (Fulfilled _) =>
      let '(tp, timer, w) := timeoutPromise (nav_message n) (nav_delay n) w in
      Returns {| race_load := nav_load n; race_timeout := tp;
                 race_timer := timer |} w
  | _ => Suspended
  end.

(** ** Page: the network waits *)

(** What [waitForResponse] and [waitForRequest] hand back here: the
    promise the call returns, its handler and its timer. *)
Record waiting := {
  wait_promise : nat;
  wait_handler : nat;
  wait_timer : Z;
}.

(** The executor of the promise: the timer is set, whose callback refers
    to the handler; the handler is made, which refers to the timer; the
    handler is subscribed. *)
Definition waitForTraffic (kind : traffic) (urlOrPredicate : matcher)
    (timeout : Z) (w : World) : waiting * World :=
  let '(p, w) := new_promise w in
  let handler := length (functions w) in
  let '(timer, w) := setTimeout (TrafficTimeout kind handler p) timeout w in
  let '(handler, w) :=
    new_function (TrafficHandler kind urlOrPredicate timer p) w in
  ({| wait_promise := p; wait_handler := handler; wait_timer := timer |},
   on (traffic_event kind) handler w).

(** [waitForResponse(urlOrPredicate, { timeout })] *)
Definition waitForResponse : matcher → Z → World → waiting * World :=
  waitForTraffic Response.

(** [waitForRequest(urlOrPredicate, { timeout })] *)
Definition waitForRequest : matcher → Z → World → waiting * World :=
  waitForTraffic Request.

(** ** Screencast ([src/screencast.ts]) *)

(** [start()], to its [await this.cdp.send("Page.startScreencast", ...)]:
    the exception it throws, or the promise of the command, with which
    the call settles.  [options] is [this.options]. *)
Definition start (options : list (string * option json)) (w : World)
  : (exn + nat) * World :=
  if recording w then (inl (Error "Screencast already recording"), w)
  else
    let w := set_recording true (set_frames [] w) in
    let '(handler, w) := new_function FrameHandler w in
    let w := set_frameHandler (Some handler) w in
    let w := on "Page.screencastFrame" handler w in
    let '(p, w) := send "Page.startScreencast" options w in
    (inr p, w).

(** [stop()], to its [await this.cdp.send("Page.stopScreencast")]. *)
Definition stop (w : World) : (exn + nat) * World :=
  if recording w then
    let '(p, w) := send "Page.stopScreencast" [] w in (inr p, w)
  else (inl (Error "Screencast not recording"), w).

(** [stop()] after the [await]; [return this.frames] hands out the array
    the field still refers to. *)
Definition after_stop (command : nat) (w : World)
  : resumed (list ScreencastFrame) :=
  match promises w !! command with
  | Some (Rejected e) => Throws e w
  | Some (Fulfilled _) =>
      let w :=
        match frameHandler w with
        | Some handler =>
            set_frameHandler None (off "Page.screencastFrame" handler w)
        | None => w
        end in
      let w := set_recording false w in
      Returns (frames w) w
  | _ => Suspended
  end.

Definition isRecording (w : World) : bool * World := (recording w, w).

Definition frameCount (w : World) : nat * World := (length (frames w), w).

(** ** Keyboard ([src/keyboard.ts]) *)

Record KeyDefinition := {
  keyCode : Z;
  key : string;
  code : string;
}.

Definition KEY_DEFINITIONS : list (string * KeyDefinition) :=
  [ ("Enter", {| keyCode := 13; key := "Enter"; code := "Enter" |});
    ("Tab", {| keyCode := 9; key := "Tab"; code := "Tab" |});
    ("Backspace", {| keyCode := 8; key := "Backspace"; code := "Backspace" |});
    ("Delete", {| keyCode := 46; key := "Delete"; code := "Delete" |});
    ("Escape", {| keyCode := 27; key := "Escape"; code := "Escape" |});
    ("ArrowUp", {| keyCode := 38; key := "ArrowUp"; code := "ArrowUp" |});
    ("ArrowDown", {| keyCode := 40; key := "ArrowDown"; code := "ArrowDown" |});
    ("ArrowLeft", {| keyCode := 37; key := "ArrowLeft"; code := "ArrowLeft" |});
    ("ArrowRight",
      {| keyCode := 39; key := "ArrowRight"; code := "ArrowRight" |});
    ("Home", {| keyCode := 36; key := "Home"; code := "Home" |});
    ("End", {| keyCode := 35; key := "End"; code := "End" |});
    ("PageUp", {| keyCode := 33; key := "PageUp"; code := "PageUp" |});
    ("PageDown", {| keyCode := 34; key := "PageDown"; code := "PageDown" |});
    ("Space", {| keyCode := 32; key := " "; code := "Space" |});
    ("Control", {| keyCode := 17; key := "Control"; code := "ControlLeft" |});
    ("Shift", {| keyCode := 16; key := "Shift"; code := "ShiftLeft" |});
    ("Alt", {| keyCode := 18; key := "Alt"; code := "AltLeft" |});
    ("Meta", {| keyCode := 91; key := "Meta"; code := "MetaLeft" |});
    ("F1", {| keyCode := 112; key := "F1"; code := "F1" |});
    ("F2", {| keyCode := 113; key := "F2"; code := "F2" |});
    ("F3", {| keyCode := 114; key := "F3"; code := "F3" |});
    ("F4", {| keyCode := 115; key := "F4"; code := "F4" |});
    ("F5", {| keyCode := 116; key := "F5"; code := "F5" |});
    ("F6", {| keyCode := 117; key := "F6"; code := "F6" |});
    ("F7", {| keyCode := 118; key := "F7"; code := "F7" |});
    ("F8", {| keyCode := 119; key := "F8"; code := "F8" |});
    ("F9", {| keyCode := 120; key := "F9"; code := "F9" |});
    ("F10", {| keyCode := 121; key := "F10"; code := "F10" |});
    ("F11", {| keyCode := 122; key := "F11"; code := "F11" |});
    ("F12", {| keyCode := 123; key := "F12"; code := "F12" |}) ].

Definition key_definition (k : string) : option KeyDefinition :=
  snd <$> List.find (λ kv, String.eqb (fst kv) k) KEY_DEFINITIONS.

(** The bitwise operators work on 32-bit integers. *)
Definition ToInt32 (z : Z) : Z := (z + 2 ^ 31) mod 2 ^ 32 - 2 ^ 31.

(** [a | b], [a & b], [~a] *)
Definition bit_or (a b : Z) : Z := Z.lor (ToInt32 a) (ToInt32 b).
Definition bit_and (a b : Z) : Z := Z.land (ToInt32 a) (ToInt32 b).
Definition bit_not (a : Z) : Z := Z.lnot (ToInt32 a).

Record Keyboard := { modifiers : Z }.

(** [key.toUpperCase()], on the ASCII letters. *)
Fixpoint toUpperCase (s : string) : string :=
  match s with
  | String c rest =>
      String (if (97 <=? JSON.code c) && (JSON.code c <=? 122)
              then JSON.char_of (JSON.code c - 32) else c)
        (toUpperCase rest)
  | EmptyString => EmptyString
  end.

(** [key.charCodeAt(0)]; outside the string it is NaN, which the frame
    carries as [null]. *)
Definition charCodeAt0 (s : string) : json :=
  match s with
  | String c _ => JNum (JSON.code c) 0
  | EmptyString => JNull
  end.

Definition key_event (type k : string) (modifiers : Z)
  : list (string * option json) :=
  let def := key_definition k in
  [ ("type", Some (JStr type));
    ("modifiers", Some (JNum modifiers 0));
    ("key", Some (JStr (default k (key <$> def))));
    ("code", Some (JStr (default ("Key" +:+ toUpperCase k) (code <$> def))));
    ("windowsVirtualKeyCode",
      Some (default (charCodeAt0 k) ((λ d, JNum (keyCode d) 0) <$> def))) ].

(** The modifier updates at the head of [down] and of [up]. *)
Definition press_modifier (k : string) (m : Z) : Z :=
  let m := if String.eqb k "Shift" then bit_or m 8 else m in
  let m := if String.eqb k "Control" then bit_or m 4 else m in
  let m := if String.eqb k "Alt" then bit_or m 2 else m in
  if String.eqb k "Meta" then bit_or m 1 else m.

Definition release_modifier (k : string) (m : Z) : Z :=
  let m := if String.eqb k "Shift" then bit_and m (bit_not 8) else m in
  let m := if String.eqb k "Control" then bit_and m (bit_not 4) else m in
  let m := if String.eqb k "Alt" then bit_and m (bit_not 2) else m in
  if String.eqb k "Meta" then bit_and m (bit_not 1) else m.

(** [down(key)] and [up(key)], to their [await]: the keyboard, and the
    promise of the command sent. *)
Definition down (k : string) (kb : Keyboard) (w : World)
  : Keyboard * nat * World :=
  let m := press_modifier k (modifiers kb) in
  let '(p, w) := send "Input.dispatchKeyEvent" (key_event "keyDown" k m) w in
  ({| modifiers := m |}, p, w).

Definition up (k : string) (kb : Keyboard) (w : World)
  : Keyboard * nat * World :=
  let m := release_modifier k (modifiers kb) in
  let '(p, w) := send "Input.dispatchKeyEvent" (key_event "keyUp" k m) w in
  ({| modifiers := m |}, p, w).

(** ** Page: the poll loops *)

(** What the clock and the page answer while a poll loop runs.  The
    turns of the loop are counted from 0. *)
Record Probes := {
  clock : nat → Z;                 (* [clock 0] is [start]; [clock (S n)]
                                      is read by the loop test of turn [n] *)
  querySelector : nat → exn + Z;   (* the nodeId found in turn [n], or the
                                      rejection of a command of [this.$] *)
  isVisible : nat → exn + bool;    (* [element.isVisible()] in turn [n] *)
  evaluate : nat → exn + option json;
                                   (* [result.result.value] in turn [n] *)
}.

Inductive finished (A : Type) :=
| Resolved (a : A)
| RejectedWith (e : exn)
| StillPolling.                    (* the turns given have been used up *)
Arguments Resolved {A}.
Arguments RejectedWith {A}.
Arguments StillPolling {A}.

Record polled (A : Type) := {
  outcome : finished A;
  probes : nat;                    (* probes started *)
  slept : Z;                       (* milliseconds slept *)
}.
Arguments outcome {A}.
Arguments probes {A}.
Arguments slept {A}.

(** [this.$(selector)]: [null] for the nodeId 0, else an ElementHandle of
    the nodeId. *)
Definition dollar (env : Probes) (n : nat) : exn + option Z :=
  match querySelector env n with
  | inl e => inl e
  | inr nodeId => inr (if nodeId =? 0 then None else Some nodeId)
  end.

(** The body of the loop of [waitForSelector] short of its sleep: how
    the function leaves from it, or [None] to sleep and go around. *)
Definition poll (visible hidden : bool) (element : option Z)
    (isVisible : exn + bool) : option (finished (option Z)) :=
  if hidden then
    match element with
    | None => Some (Resolved None)
    | Some _ =>
        match isVisible with
        | inl e => Some (RejectedWith e)
        | inr false => Some (Resolved element)
        | inr true => None
        end
    end
  else
    match element with
    | Some _ =>
        if negb visible then Some (Resolved element)
        else
          match isVisible with
          | inl e => Some (RejectedWith e)
          | inr true => Some (Resolved element)
          | inr false => None
          end
    | None => None
    end.

Fixpoint waitForSelector_from (env : Probes) (selector : string)
    (timeout : Z) (visible hidden : bool) (turns n : nat)
  : polled (option Z) :=
  match turns with
  | O =>
      {| outcome := StillPolling; probes := n; slept := 100 * Z.of_nat n |}
  | S turns =>
      if clock env (S n) - clock env 0 <? timeout then
        match dollar env n with
        | inl e =>
            {| outcome := RejectedWith e; probes := S n;
               slept := 100 * Z.of_nat n |}
        | inr element =>
            match poll visible hidden element (isVisible env n) with
            | Some out =>
                {| outcome := out; probes := S n;
                   slept := 100 * Z.of_nat n |}
            | None =>
                waitForSelector_from env selector timeout visible hidden
                  turns (S n)
            end
        end
      else
        {| outcome :=
             RejectedWith (Error ("Timeout waiting for selector: "
                                  +:+ selector));
           probes := n; slept := 100 * Z.of_nat n |}
  end.

(** [waitForSelector(selector, { timeout, visible, hidden })], run for at
    most [turns] turns of its loop. *)
Definition waitForSelector (env : Probes) (selector : string) (timeout : Z)
    (visible hidden : bool) (turns : nat) : polled (option Z) :=
  waitForSelector_from env selector timeout visible hidden turns 0.

Fixpoint waitForFunction_from (env : Probes) (timeout polling : Z)
    (turns n : nat) : polled (option json) :=
  match turns with
  | O =>
      {| outcome := StillPolling; probes := n;
         slept := polling * Z.of_nat n |}
  | S turns =>
      if clock env (S n) - clock env 0 <? timeout then
        match evaluate env n with
        | inl e =>
            {| outcome := RejectedWith e; probes := S n;
               slept := polling * Z.of_nat n |}
        | inr v =>
            if truthy v then
              {| outcome := Resolved v; probes := S n;
                 slept := polling * Z.of_nat n |}
            else waitForFunction_from env timeout polling turns (S n)
        end
      else
        {| outcome := RejectedWith (Error "Timeout waiting for function");
           probes := n; slept := polling * Z.of_nat n |}
  end.

(** [waitForFunction(fn, { timeout, polling })] *)
Definition waitForFunction (env : Probes) (timeout polling : Z)
    (turns : nat) : polled (option json) :=
  waitForFunction_from env timeout polling turns 0.

(** * The vocabulary of the properties *)

(** ** The state of the heap and of the session *)

(** [settle] on the list of promises. *)
Definition settled (p : nat) (o : promise) (ps : list promise)
  : list promise :=
  match ps !! p with
  | Some Pending => <[p := o]> ps
  | _ => ps
  end.

Definition settled_all (o : promise) (slots : list (Z * nat))
    (ps : list promise) : list promise :=
  foldr (λ slot acc, settled slot.2 o acc) ps slots.

(** Every slot refers to a promise that exists. *)
Definition slots_allocated (w : World) : Prop :=
  ∀ k p, callbacks w !! k = Some p → (p < length (promises w))%nat.

(** So does every call that waits for the socket to open. *)
Definition queue_allocated (w : World) : Prop :=
  Forall (λ call, (call.1.1 < length (promises w))%nat) (awaiting_ready w).

(** The size of the Set of listeners of an event. *)
Definition listener_count (event : string) (w : World) : nat :=
  length (default [] (eventListeners w !! event)).

(** Every listener is a function object that exists. *)
Definition listeners_allocated (w : World) : Prop :=
  ∀ event listeners f,
    eventListeners w !! event = Some listeners →
    f ∈ listeners → (f < length (functions w))%nat.

Definition listeners_of (kind : traffic) (w : World) : list nat :=
  default [] (eventListeners w !! traffic_event kind).

(** The listeners of the traffic event are handlers of waits of the same
    kind, made earlier. *)
Definition traffic_listeners (kind : traffic) (w : World) : Prop :=
  ∀ f, f ∈ listeners_of kind w →
    ∃ m t p, functions w !! f = Some (TrafficHandler kind m t p)
             ∧ t < next_timer w ∧ (p < length (promises w))%nat.

(** ** Frames and calls *)

(** The [id] of a frame, if it carries one. *)
Definition frame_id (data : string) : option json :=
  JSON.parse data ≫= get "id".

(** The frame is a reply to the call with the request id [k]. *)
Definition reply_to (k : Z) (data : string) : bool :=
  bool_decide (frame_id data ≫= as_integer = Some k).

(** What a reply carries for its call: the error, or else the result. *)
Definition carried (data : string) : promise :=
  match JSON.parse data with
  | Some msg =>
      let error := get "error" msg in
      if truthy error then Rejected (ErrorOf (error ≫= get "message"))
      else Fulfilled (VResult (get "result" msg))
  | None => Pending
  end.

(** What a frame hands to the listeners of a traffic event: [msg.params]
    and its member [response] or [request].  [None] when the frame is no
    such event. *)
Definition frame_params (data : string) : option json :=
  JSON.parse data ≫= get "params".

Definition traffic_of (kind : traffic) (data : string) : option json :=
  msg ← JSON.parse data;
  match msg, get "id" msg, get "method" msg with
  | JObj _, None, Some (JStr name) =>
      if String.eqb name (traffic_event kind) then
        object_of (get "params" msg) ≫= λ ps, object_of (get (member kind) ps)
      else None
  | _, _, _ => None
  end.

(** Calls of [send] one after the other: the promise of each, in the
    order of the calls. *)
Fixpoint send_all (calls : list (string * list (string * option json)))
    (w : World) : list nat * World :=
  match calls with
  | [] => ([], w)
  | (method, params) :: calls =>
      let '(p, w) := send method params w in
      let '(ps, w) := send_all calls w in
      (p :: ps, w)
  end.

(** The same on a session whose socket is open, where each call
    registers its slot at once: the request id and the promise of each
    call. *)
Fixpoint sent_slots (calls : list (string * list (string * option json)))
    (w : World) : list (Z * nat) * World :=
  match calls with
  | [] => ([], w)
  | (method, params) :: calls =>
      let '(p, w) := send method params w in
      let k := id_ w in
      let '(slots, w) := sent_slots calls w in
      ((k, p) :: slots, w)
  end.

(** What [onopen] does with the calls that wait for it. *)
Definition flush (queue : list (nat * string * list (string * option json)))
    (w : World) : World :=
  foldl (λ acc '(p, method, params), send_body p method params acc) w queue.

(** Frames handed in one after the other, each in a turn of its own. *)
Definition receive_all (frames : list string) (w : World) : World :=
  foldl (λ w data, onmessage data w) w frames.

(** The state of a call after the frames [seen]: its slot is still there
    and its promise pending while no reply to it has come; from its
    first reply on, the slot is gone and the promise holds what that
    reply carried. *)
Definition call_state (seen : list string) (w : World) (slot : Z * nat)
  : Prop :=
  match List.find (reply_to slot.1) seen with
  | None =>
      callbacks w !! slot.1 = Some slot.2
      ∧ promises w !! slot.2 = Some Pending
  | Some data =>
      callbacks w !! slot.1 = None
      ∧ promises w !! slot.2 = Some (carried data)
  end.

(** No two calls share a promise, and no other slot refers to the
    promise of one of them. *)
Definition calls_apart (slots : list (Z * nat)) (w : World) : Prop :=
  ∀ k p, callbacks w !! k = Some p → p ∈ slots.*2 → (k, p) ∈ slots.

(** ** What may happen to a session *)




(** What can happen between a [stop()] and the next [start()]: the
    socket opens or fails, frames come in and timers fire; the session,
    the page and the keyboard are called; and the screencast is called,
    but for [start()]. *)
Inductive without_start : World → World → Prop :=
| quiet_onopen w : without_start w (onopen w)
| quiet_onerror e w : without_start w (onerror e w)
| quiet_frame data w : without_start w (onmessage data w)
| quiet_timer t w : without_start w (fire_timer t w)
| quiet_send method params w : without_start w (send method params w).2
| quiet_on event callback w : without_start w (on event callback w)
| quiet_off event callback w : without_start w (off event callback w)
| quiet_close w : without_start w (close w)
| quiet_waitForNavigation options w :
    without_start w (waitForNavigation options w).2
| quiet_goto url options w : without_start w (goto url options w).2
| quiet_reload options w : without_start w (reload options w).2
| quiet_after_command n w r w' :
    after_command n w = Returns r w' → without_start w w'
| quiet_after_race r w w' :
    after_race r w = Returns () w' → without_start w w'
| quiet_after_race_thrown r w e w' :
    after_race r w = Throws e w' → without_start w w'
| quiet_waitForTraffic kind urlOrPredicate timeout w :
    without_start w (waitForTraffic kind urlOrPredicate timeout w).2
| quiet_down k kb w : without_start w (down k kb w).2
| quiet_up k kb w : without_start w (up k kb w).2
| quiet_stop w : without_start w (stop w).2
| quiet_after_stop command w recorded w' :
    after_stop command w = Returns recorded w' → without_start w w'
| quiet_isRecording w : without_start w (isRecording w).2
| quiet_frameCount w : without_start w (frameCount w).2.

(** A [waitForNavigation] on which the timer fires: the state after the
    rejection has left the function. *)
Definition timed_out_wait (options : NavigateOptions) (w : World) : World :=
  let '(r, w) := waitForNavigation options w in
  let w := fire_timer (race_timer r) w in
  match after_race r w with
  | Returns _ w | Throws _ w => w
  | Suspended => w
  end.

(** ** The waits for traffic *)

(** The event passes the test of the wait. *)
Definition matching (m : matcher) (r : json) : bool :=
  match matches m (get "url" r) with
  | Some b => b
  | None => false
  end.

(** The first event among the frames that passes the test of the wait. *)
Fixpoint first_match (kind : traffic) (m : matcher) (frames : list string)
  : option json :=
  match frames with
  | [] => None
  | data :: frames =>
      match traffic_of kind data with
      | Some r => if matching m r then Some r else first_match kind m frames
      | None => first_match kind m frames
      end
  end.

(** The [headers] property of what a promise was resolved with. *)
Definition headers_of (v : value) : option json :=
  match v with
  | VResponse _ _ headers => headers
  | _ => None
  end.

Section WaitState.
Variables (kind : traffic) (m : matcher) (h : nat) (t : Z) (p : nat)
  (delay : Z).

(** Another listener of the event: the handler of another wait of the
    same kind, with a timer and a promise of its own. *)
Definition bystander (w : World) (f : nat) : Prop :=
  ∃ m0 t0 p0,
    functions w !! f = Some (TrafficHandler kind m0 t0 p0)
    ∧ t0 ≠ t ∧ p0 ≠ p.

Inductive phase :=
| Waiting
| Delivered (v : value).

(** The wait with the handler [h], the timer [t] and the promise [p]:
    subscribed, the timer set and the promise pending; or resolved,
    unsubscribed and the timer cleared. *)
Definition wait_state (ph : phase) (w : World) : Prop :=
  ∃ others,
    (h ∉ others) ∧ Forall (bystander w) others
    ∧ match ph with
      | Waiting =>
          eventListeners w !! traffic_event kind = Some (others ++ [h])
          ∧ functions w !! h = Some (TrafficHandler kind m t p)
          ∧ promises w !! p = Some Pending
          ∧ timers w !! t = Some (TrafficTimeout kind h p, delay)
      | Delivered v =>
          eventListeners w !! traffic_event kind = Some others
          ∧ promises w !! p = Some (Fulfilled v)
          ∧ timers w !! t = None
      end.

(** What an event does to the wait. *)
Definition after_event (ph : phase) (r : json) : phase :=
  match ph with
  | Waiting => if matching m r then Delivered (resolution kind r) else Waiting
  | Delivered v => Delivered v
  end.

Definition after_frame (ph : phase) (data : string) : phase :=
  match traffic_of kind data with
  | Some r => after_event ph r
  | None => ph
  end.

End WaitState.

(** ** The keys *)

(** The bit a key holds in [modifiers], for the four keys that hold one. *)
Definition modifier_bit (k : string) : option Z :=
  if String.eqb k "Shift" then Some 8
  else if String.eqb k "Control" then Some 4
  else if String.eqb k "Alt" then Some 2
  else if String.eqb k "Meta" then Some 1
  else None.

(** ** Worked inputs *)

(** A session whose socket has opened. *)
Definition open_world : World := onopen new_world.

(** A page on which no selector finds an element and the clock stands
    still. *)
Definition empty_page : Probes :=
  {| clock := λ _, 1000;
     querySelector := λ _, inr 0;
     isVisible := λ _, inr false;
     evaluate := λ _, inr None |}.

(** A frame that is no JSON text. *)
Definition truncated_frame : string := "{".

Definition quoted (s : string) : string :=
  String dquote (s +:+ String dquote EmptyString).

(** [{"id":k,"result":{}}] *)
Definition reply_result (k : string) : string :=
  "{" +:+ quoted "id" +:+ ":" +:+ k +:+ "," +:+ quoted "result" +:+ ":{}}".

(** [{"id":k,"error":{"message":"No node"}}] *)
Definition reply_error (k : string) : string :=
  "{" +:+ quoted "id" +:+ ":" +:+ k +:+ "," +:+ quoted "error" +:+ ":{"
  +:+ quoted "message" +:+ ":" +:+ quoted "No node" +:+ "}}".

(** [{"method":"Page.loadEventFired","params":{}}] *)
Definition load_event : string :=
  "{" +:+ quoted "method" +:+ ":" +:+ quoted "Page.loadEventFired" +:+ ","
  +:+ quoted "params" +:+ ":{}}".

(** [{"method":"Network.responseReceived","params":{"response":{"url":
    url,"status":status,"headers":{}}}}] *)
Definition response_event (url status : string) : string :=
  "{" +:+ quoted "method" +:+ ":" +:+ quoted "Network.responseReceived"
  +:+ "," +:+ quoted "params" +:+ ":{" +:+ quoted "response" +:+ ":{"
  +:+ quoted "url" +:+ ":" +:+ quoted url +:+ ","
  +:+ quoted "status" +:+ ":" +:+ status +:+ ","
  +:+ quoted "headers" +:+ ":{}}}}".

(** [{"method":"Network.requestWillBeSent","params":{"request":{"url":
    url,"method":"GET","headers":{"Accept":"text/html"}}}}] *)
Definition request_event (url : string) : string :=
  "{" +:+ quoted "method" +:+ ":" +:+ quoted "Network.requestWillBeSent"
  +:+ "," +:+ quoted "params" +:+ ":{" +:+ quoted "request" +:+ ":{"
  +:+ quoted "url" +:+ ":" +:+ quoted url +:+ ","
  +:+ quoted "method" +:+ ":" +:+ quoted "GET" +:+ ","
  +:+ quoted "headers" +:+ ":{" +:+ quoted "Accept" +:+ ":"
  +:+ quoted "text/html" +:+ "}}}}".

(** [{"method":"Page.screencastFrame","params":{"data":data,
    "metadata":{},"sessionId":sessionId}}] *)
Definition screencast_event (data sessionId : string) : string :=
  "{" +:+ quoted "method" +:+ ":" +:+ quoted "Page.screencastFrame"
  +:+ "," +:+ quoted "params" +:+ ":{" +:+ quoted "data" +:+ ":"
  +:+ quoted data +:+ "," +:+ quoted "metadata" +:+ ":{},"
  +:+ quoted "sessionId" +:+ ":" +:+ sessionId +:+ "}}".

(** Five responses, of which the third and the fifth are to the url
    waited for. *)
Definition burst : list string :=
  [ response_event "https://example.com/" "200";
    response_event "https://example.com/style.css" "200";
    response_event "https://example.com/api/data" "201";
    response_event "https://example.com/favicon.ico" "404";
    response_event "https://example.com/api/data" "500" ].

(** ** Subscriptions, queues and events *)

(** The Set of listeners of an event, empty where there is none. *)
Definition subscribers (event : string) (w : World) : list nat :=
  default [] (eventListeners w !! event).

(** The frames that calls are written as, the first of them with the
    request id [k + 1]. *)
Fixpoint numbered (k : Z) (calls : list (string * list (string * option json)))
  : list outbound :=
  match calls with
  | [] => []
  | (method, params) :: calls =>
      {| out_id := k + 1; out_method := method; out_params := params |}
      :: numbered (k + 1) calls
  end.

(** The calls as they wait at [await this.ready], the first of them with
    the promise [p]. *)
Fixpoint queued (p : nat) (calls : list (string * list (string * option json)))
  : list (nat * string * list (string * option json)) :=
  match calls with
  | [] => []
  | (method, params) :: calls => (p, method, params) :: queued (S p) calls
  end.

(** The calls that wait for the socket to open. *)
Definition waiting_calls (w : World)
  : list (string * list (string * option json)) :=
  (λ call, (call.1.2, call.2)) <$> awaiting_ready w.

(** The name and the params of the event a frame carries: the frame has
    no [id], and its [method] is a string that is not empty. *)
Definition event_frame (data : string) : option (string * option json) :=
  msg ← JSON.parse data;
  match msg, get "id" msg, get "method" msg with
  | JObj _, None, Some (JStr name) =>
      if String.eqb name EmptyString then None
      else Some (name, get "params" msg)
  | _, _, _ => None
  end.

(** What a [Page.screencastFrame] event carries: the data, the metadata
    and the sessionId. *)
Definition screencast_frame_of (data : string)
  : option (string * option json * option json) :=
  match event_frame data with
  | Some (name, Some ps) =>
      if String.eqb name "Page.screencastFrame" then
        match get "data" ps with
        | Some (JStr text) => Some (text, get "metadata" ps, get "sessionId" ps)
        | _ => None
        end
      else None
  | _ => None
  end.

(** The frame the handler of a recording stores for an event that
    arrives at the time [t], and the acknowledgement it sends with the
    request id [k]. *)
Definition stored (t : Z) (shot : string * option json * option json)
  : ScreencastFrame :=
  {| frame_data := shot.1.1; frame_timestamp := t;
     frame_metadata := shot.1.2 |}.

Definition acknowledged (k : Z) (shot : string * option json * option json)
  : outbound :=
  {| out_id := k; out_method := "Page.screencastFrameAck";
     out_params := [("sessionId", shot.2)] |}.

(** The call that acknowledges a frame. *)
Definition ack_call (shot : string * option json * option json)
  : string * list (string * option json) :=
  ("Page.screencastFrameAck", [("sessionId", shot.2)]).

(** Of the frames that arrive, each at its time, those that are
    [Page.screencastFrame] events. *)
Definition shots (arrivals : list (Z * string))
  : list (Z * (string * option json * option json)) :=
  omap (λ arrival,
          (λ shot, (arrival.1, shot)) <$> screencast_frame_of arrival.2)
    arrivals.

(** Frames that arrive one after the other, each at its time. *)
Definition arrive (arrivals : list (Z * string)) (w : World) : World :=
  foldl (λ w arrival, onmessage arrival.2 (set_now arrival.1 w)) w arrivals.

(** The state of a recording: the handler [h] is the one listener of
    the frames, and the socket is open. *)
Definition recording_with (h : nat) (w : World) : Prop :=
  recording w = true ∧ ready w = Opened ∧ terminated w = false
  ∧ subscribers "Page.screencastFrame" w = [h]
  ∧ functions w !! h = Some FrameHandler.

(** The listeners of the event are handlers of navigation waits, made
    earlier. *)
Definition navigation_listeners (event : string) (w : World) : Prop :=
  ∀ f, f ∈ subscribers event w →
    ∃ p, functions w !! f = Some (LoadHandler event p)
         ∧ (p < length (promises w))%nat.

(** * Properties *)

(** ** Keyboard: the modifier bitmask *)

Lemma down_modifiers k kb w :
  modifiers (down k kb w).1.1 = press_modifier k (modifiers kb).
Proof. unfold down. by destruct (send _ _ _). Qed.

Lemma up_modifiers k kb w :
  modifiers (up k kb w).1.1 = release_modifier k (modifiers kb).
Proof. unfold up. by destruct (send _ _ _). Qed.

Ltac each_mask m H :=
  let C := fresh "C" in
  assert (C : m = 0 ∨ m = 1 ∨ m = 2 ∨ m = 3 ∨ m = 4 ∨ m = 5 ∨ m = 6
              ∨ m = 7 ∨ m = 8 ∨ m = 9 ∨ m = 10 ∨ m = 11 ∨ m = 12 ∨ m = 13
              ∨ m = 14 ∨ m = 15) by lia;
  clear H; repeat (destruct C as [C | C]); subst m.

Ltac this_key k H := apply String.eqb_eq in H; subst k; simpl.

Ltac which_key k :=
  unfold modifier_bit, press_modifier, release_modifier;
  let H := fresh "Hkey" in
  destruct (String.eqb k "Shift") eqn:H;
    [this_key k H
    |clear H; destruct (String.eqb k "Control") eqn:H;
       [this_key k H
       |clear H; destruct (String.eqb k "Alt") eqn:H;
          [this_key k H
          |clear H; destruct (String.eqb k "Meta") eqn:H;
             [this_key k H | clear H]]]].

(** The updates of [down] and [up] in terms of the key's bit. *)
Lemma press_release_spec k m :
  0 <= m < 16 →
  match modifier_bit k with
  | None => press_modifier k m = m ∧ release_modifier k m = m
  | Some b =>
      press_modifier k m = Z.lor m b
      ∧ release_modifier k m = Z.land m (Z.lnot b)
  end.
Proof.
  intros Hm. which_key k; try done; each_mask m Hm; by vm_compute.
Qed.

Lemma press_modifier_range k m :
  0 <= m < 16 → 0 <= press_modifier k m < 16.
Proof.
  intros Hm. which_key k; try done; each_mask m Hm; by vm_compute.
Qed.

Lemma release_modifier_range k m :
  0 <= m < 16 → 0 <= release_modifier k m < 16.
Proof.
  intros Hm. which_key k; try done; each_mask m Hm; by vm_compute.
Qed.

Lemma release_press k m :
  0 <= m < 16 → release_modifier k (press_modifier k m) = release_modifier k m.
Proof.
  intros Hm. which_key k; try done; each_mask m Hm; by vm_compute.
Qed.

(** C9, as the code has it.  A key other than Shift, Control, Alt and
    Meta leaves the bitmask as it is, on [down] and on [up]; one of the
    four has its bit set by [down] and cleared by [up].  [down(k)] then
    [up(k)] leaves the bit of [k] clear and the other bits as they
    were: the bitmask is back at its earlier value exactly when [k] holds
    no bit or its bit was clear before. *)
Theorem C9_modifier_bitmask (k : string) (kb : Keyboard) (w : World) :
  0 <= modifiers kb < 16 →
  let pressed := down k kb w in
  let released := up k pressed.1.1 pressed.2 in
  match modifier_bit k with
  | None =>
      modifiers pressed.1.1 = modifiers kb
      ∧ modifiers (up k kb w).1.1 = modifiers kb
      ∧ modifiers released.1.1 = modifiers kb
  | Some b =>
      modifiers pressed.1.1 = Z.lor (modifiers kb) b
      ∧ modifiers (up k kb w).1.1 = Z.land (modifiers kb) (Z.lnot b)
      ∧ modifiers released.1.1 = Z.land (modifiers kb) (Z.lnot b)
      ∧ (modifiers released.1.1 = modifiers kb ↔ Z.land (modifiers kb) b = 0)
  end.
Proof.
  destruct kb as [m]. simpl. intros Hm.
  rewrite !up_modifiers, !down_modifiers. simpl.
  rewrite release_press by done.
  pose proof (press_release_spec k m Hm) as Hspec.
  destruct (modifier_bit k) as [b|] eqn:Hbit.
  - destruct Hspec as [Hp Hr]. rewrite Hp, Hr. repeat split; try done.
    + revert Hbit. clear Hp Hr.
      which_key k; intros [= <-]; try done; each_mask m Hm; by vm_compute.
    + revert Hbit. clear Hp Hr.
      which_key k; intros [= <-]; try done; each_mask m Hm; by vm_compute.
  - destruct Hspec as [Hp Hr]. by rewrite Hr.
Qed.

Lemma C9_modifier_bitmask_witness :
  let kb := {| modifiers := 8 |} in
  let pressed := down "Shift" kb new_world in
  modifiers pressed.1.1 = 8
  ∧ modifiers (up "Shift" pressed.1.1 pressed.2).1.1 = 0.
Proof.
  pose proof (C9_modifier_bitmask "Shift" {| modifiers := 8 |} new_world) as H.
  simpl in H. destruct H as (Hp & _ & Hr & _); [lia |].
  split; [exact Hp | exact Hr].
Defined.

(** With Shift held already, [down("Shift")] then [up("Shift")] does not
    bring the bitmask back to what it was before the [down]. *)
Lemma C9_counterexample :
  let kb := (down "Shift" {| modifiers := 0 |} new_world).1.1 in
  let pressed := down "Shift" kb new_world in
  modifiers kb = 8
  ∧ modifiers (up "Shift" pressed.1.1 pressed.2).1.1 ≠ modifiers kb.
Proof. by vm_compute. Qed.

(** ** The poll loops *)

(** C5, as the code has it.  With a timeout of zero or less, and a clock
    that has not gone back since [start] was read, the loop test fails
    the first time: [waitForSelector] and [waitForFunction] fail with
    their timeout error and no probe has been made. *)
Theorem C5_expired_timeout_makes_no_probe (env : Probes) (selector : string)
    (timeout polling : Z) (visible hidden : bool) (turns : nat) :
  timeout <= 0 →
  clock env 0 <= clock env 1 →
  waitForSelector env selector timeout visible hidden (S turns)
  = {| outcome :=
         RejectedWith (Error ("Timeout waiting for selector: " +:+ selector));
       probes := 0; slept := 0 |}
  ∧ waitForFunction env timeout polling (S turns)
    = {| outcome := RejectedWith (Error "Timeout waiting for function");
         probes := 0; slept := 0 |}.
Proof.
  intros Htimeout Hclock.
  unfold waitForSelector, waitForFunction. simpl.
  assert ((clock env 1 - clock env 0 <? timeout) = false) as ->
    by (apply Z.ltb_ge; lia).
  split; f_equal; lia.
Qed.

Lemma C5_expired_timeout_makes_no_probe_witness :
  probes (waitForSelector empty_page "h1" 0 false false 5) = 0%nat
  ∧ probes (waitForFunction empty_page (-1) 100 5) = 0%nat.
Proof.
  destruct (C5_expired_timeout_makes_no_probe empty_page "h1" 0 100
              false false 4) as [Hs _]; [lia | simpl; lia |].
  destruct (C5_expired_timeout_makes_no_probe empty_page "h1" (-1) 100
              false false 4) as [_ Hf]; [lia | simpl; lia |].
  by rewrite Hs, Hf.
Defined.

(** [waitForSelector("h1", { timeout: 0 })] fails with its timeout error
    and has made no probe. *)
Lemma C5_counterexample :
  let run := waitForSelector empty_page "h1" 0 false false 5 in
  outcome run = RejectedWith (Error "Timeout waiting for selector: h1")
  ∧ ¬ (1 <= probes run)%nat.
Proof. split; [reflexivity | vm_compute; lia]. Qed.

(** C6, as the code has it.  With [hidden] set and a selector that finds
    no element, a wait whose time has not run out at the first loop test
    returns [null] from its first poll, without sleeping.  A poll with
    [hidden] set succeeds exactly when the element is not found, or is
    found and [isVisible] answers false. *)
Theorem C6_hidden_returns_on_first_poll (env : Probes) (selector : string)
    (timeout : Z) (visible : bool) (turns : nat) :
  querySelector env 0 = inr 0 →
  clock env 1 - clock env 0 < timeout →
  waitForSelector env selector timeout visible true (S turns)
  = {| outcome := Resolved None; probes := 1; slept := 0 |}
  ∧ ∀ element answer,
      (∃ r, poll visible true element answer = Some (Resolved r))
      ↔ element = None ∨ (is_Some element ∧ answer = inr false).
Proof.
  intros Hquery Hclock. split.
  - unfold waitForSelector. simpl.
    assert ((clock env 1 - clock env 0 <? timeout) = true) as ->
      by (apply Z.ltb_lt; lia).
    unfold dollar. rewrite Hquery. simpl. f_equal; lia.
  - intros element answer. unfold poll. split.
    + intros [r Hr]. destruct element as [el|]; [right | by left].
      split; [by eexists |].
      by destruct answer as [e | []].
    + intros [-> | [[el ->] ->]]; by eexists.
Qed.

Lemma C6_hidden_returns_on_first_poll_witness :
  waitForSelector empty_page "#gone" 30000 false true 1
  = {| outcome := Resolved None; probes := 1; slept := 0 |}.
Proof.
  apply (C6_hidden_returns_on_first_poll empty_page "#gone" 30000 false 0);
    [reflexivity | simpl; lia].
Defined.

(** [waitForSelector("#gone", { hidden: true, timeout: 0 })] on a page
    without the element does not succeed: it fails with the timeout
    error. *)
Lemma C6_counterexample :
  querySelector empty_page 0 = inr 0
  ∧ outcome (waitForSelector empty_page "#gone" 0 false true 5)
    = RejectedWith (Error "Timeout waiting for selector: #gone")
  ∧ outcome (waitForSelector empty_page "#gone" 0 false true 5)
    ≠ Resolved None.
Proof. by vm_compute. Qed.

(** ** CDPSession: frames that cannot be routed *)

(** C3, as the code has it.  Nothing in [handleMessage] or around its
    call catches an exception: a frame that is no JSON text leaves it
    with the SyntaxError of [JSON.parse], and the frame [null] with a
    TypeError.  A parsed frame other than [null] that has neither an [id]
    nor a [method] is dropped without an error.  In each case the session
    is left as it was, the pending calls and the subscriptions with it. *)
Theorem C3_unroutable_frame_leaves_session (data : string) (w : World) :
  (JSON.parse data = None → handleMessage data w = (w, Some SyntaxError))
  ∧ (JSON.parse data = Some JNull →
     handleMessage data w = (w, Some TypeError))
  ∧ (∀ msg, JSON.parse data = Some msg → msg ≠ JNull →
       get "id" msg = None → get "method" msg = None →
       handleMessage data w = (w, None)).
Proof.
  unfold handleMessage. repeat split.
  - by intros ->.
  - by intros ->.
  - intros msg -> Hnull Hid Hmethod. unfold dispatch.
    rewrite Hid, Hmethod. by destruct msg.
Qed.

Lemma C3_unroutable_frame_leaves_session_witness :
  handleMessage truncated_frame new_world = (new_world, Some SyntaxError)
  ∧ handleMessage "null" new_world = (new_world, Some TypeError)
  ∧ handleMessage "[1, 2]" new_world = (new_world, None).
Proof.
  destruct (C3_unroutable_frame_leaves_session truncated_frame new_world)
    as (Hsyntax & _ & _).
  destruct (C3_unroutable_frame_leaves_session "null" new_world)
    as (_ & Hnull & _).
  destruct (C3_unroutable_frame_leaves_session "[1, 2]" new_world)
    as (_ & _ & Hdrop).
  split; [by apply Hsyntax |]. split; [by apply Hnull |].
  by apply (Hdrop (JArr [JNum 1 0; JNum 2 0])).
Defined.

(** A frame that is no JSON text is not dropped in silence: the
    SyntaxError leaves [handleMessage]. *)
Lemma C3_counterexample :
  JSON.parse truncated_frame = None
  ∧ (handleMessage truncated_frame new_world).2 = Some SyntaxError
  ∧ (handleMessage truncated_frame new_world).2 ≠ None.
Proof. by vm_compute. Qed.

(** ** Promises *)

Lemma set_promises_id w : set_promises (promises w) w = w.
Proof. by destruct w. Qed.

Lemma settle_eq p o w :
  settle p o w = set_promises (settled p o (promises w)) w.
Proof.
  unfold settle, settled.
  destruct (promises w !! p) as [[]|]; by rewrite ?set_promises_id.
Qed.

Lemma settled_lookup p o ps q :
  settled p o ps !! q
  = if decide (q = p)
    then match ps !! p with Some Pending => Some o | other => other end
    else ps !! q.
Proof.
  unfold settled. case_decide as Hq.
  - subst q. destruct (ps !! p) as [[]|] eqn:Hp; try done.
    apply list_lookup_insert_eq. by eapply lookup_lt_Some.
  - destruct (ps !! p) as [[]|]; try done.
    by apply list_lookup_insert_ne.
Qed.

Lemma settled_other p o ps q : q ≠ p → settled p o ps !! q = ps !! q.
Proof. intros Hq. rewrite settled_lookup. by case_decide. Qed.

Lemma settled_pending p o ps :
  ps !! p = Some Pending → settled p o ps !! p = Some o.
Proof. intros Hp. rewrite settled_lookup, Hp. by case_decide. Qed.

(** A promise that has settled stays as it is. *)
Lemma settled_stable p o ps q r :
  ps !! q = Some r → r ≠ Pending → settled p o ps !! q = Some r.
Proof.
  intros Hq Hr. rewrite settled_lookup. case_decide as Heq; [|done].
  subst q. rewrite Hq. by destruct r.
Qed.

(** ** CDPSession: close *)

Lemma reject_all_eq e slots w :
  foldr (λ slot acc, reject slot.2 e acc) w slots
  = set_promises (settled_all (Rejected e) slots (promises w)) w.
Proof.
  induction slots as [|slot slots IH]; simpl.
  - by rewrite set_promises_id.
  - rewrite IH. unfold reject. by rewrite settle_eq.
Qed.

Lemma settled_all_lookup o slots ps q :
  o ≠ Pending →
  settled_all o slots ps !! q
  = if decide (q ∈ slots.*2)
    then match ps !! q with Some Pending => Some o | other => other end
    else ps !! q.
Proof.
  intros Ho. induction slots as [|[k p] slots IH]; simpl.
  - done.
  - rewrite settled_lookup. destruct (decide (q = p)) as [-> | Hq].
    + rewrite decide_True by (by left).
      rewrite IH. destruct (decide (p ∈ slots.*2)); [|done].
      destruct (ps !! p) as [[]|]; try done. by destruct o.
    + rewrite IH. destruct (decide (q ∈ slots.*2)) as [Hin | Hin].
      * by rewrite decide_True by (by right).
      * rewrite decide_False; [done |]. by intros [?|?]%elem_of_cons.
Qed.

Lemma close_eq w :
  close w
  = set_terminated true
      (set_eventListeners ∅
         (set_callbacks ∅
            (set_promises
               (settled_all (Rejected (Error "Connection closed"))
                  (map_to_list (callbacks w)) (promises w)) w))).
Proof. unfold close. by rewrite reject_all_eq. Qed.

Lemma send_body_fields_at p method params w :
  callbacks (send_body p method params w) = <[id_ w + 1 := p]> (callbacks w)
  ∧ promises (send_body p method params w) = promises w.
Proof. unfold send_body, ws_send. simpl. by destruct (terminated w). Qed.

(** [send] is the call and the end of its turn. *)
Lemma send_in_its_turn method params w :
  awaiting_ready w = [] →
  send method params w
  = ((send_call method params w).1,
     end_of_turn (send_call method params w).2).
Proof.
  intros Hqueue. unfold send, send_call, end_of_turn, new_promise. simpl.
  rewrite Hqueue. destruct w as [? ? ? r ? ? ? ? ? ? ? ? ? ? ?].
  simpl in *. subst. by destruct r.
Qed.

(** C2.  [close()] rejects every call that has its slot in [callbacks],
    with the error "Connection closed"; it leaves no slot in [callbacks]
    and no subscription in [eventListeners]; and it settles no promise
    but those of the slots.  A call that is still at [await this.ready]
    has no slot: [close()] leaves it waiting and its promise pending,
    be it that the socket is connecting or that the call was made
    earlier in the turn of [close()].  In that turn, on an open socket,
    the call goes on after [close()]: it registers its slot then, and
    its promise is pending still. *)
Theorem C2_close_rejects_every_pending_call (w : World) :
  (∀ k p, callbacks w !! k = Some p → promises w !! p = Some Pending →
     promises (close w) !! p = Some (Rejected (Error "Connection closed")))
  ∧ callbacks (close w) = ∅
  ∧ size (callbacks (close w)) = 0%nat
  ∧ eventListeners (close w) = ∅
  ∧ (∀ p, (∀ k, callbacks w !! k ≠ Some p) →
       promises (close w) !! p = promises w !! p)
  ∧ awaiting_ready (close w) = awaiting_ready w
  ∧ ready (close w) = ready w
  ∧ (slots_allocated w →
     ∀ method params,
       let call := send_call method params w in
       let closed := close call.2 in
       promises call.2 !! call.1 = Some Pending
       ∧ promises closed !! call.1 = Some Pending
       ∧ awaiting_ready closed
         = awaiting_ready w ++ [(call.1, method, params)]
       ∧ (ready w = Opened → awaiting_ready w = [] →
          callbacks (end_of_turn closed) = {[ id_ w + 1 := call.1 ]}
          ∧ promises (end_of_turn closed) !! call.1 = Some Pending)).
Proof.
  split; [|split; [|split; [|split; [|split; [|split; [|split]]]]]];
    try (rewrite close_eq; by simpl).
  - rewrite close_eq. simpl.
    intros k p Hk Hp. rewrite settled_all_lookup by done.
    rewrite decide_True, Hp; [done |].
    apply list_elem_of_fmap. exists (k, p). split; [done |].
    by apply elem_of_map_to_list.
  - rewrite close_eq. simpl.
    intros p Hp. rewrite settled_all_lookup by done.
    rewrite decide_False; [done |].
    intros Hin. apply list_elem_of_fmap in Hin as ([k p'] & Heq & Hin).
    simpl in Heq. subst p'.
    apply elem_of_map_to_list in Hin. by apply (Hp k).
  - intros Hslots method params call closed.
    assert (call.1 = length (promises w)) as Hcall by done.
    assert (promises call.2 = promises w ++ [Pending]) as Hpromises by done.
    assert (callbacks call.2 = callbacks w) as Hcallbacks by done.
    assert (promises closed !! call.1 = Some Pending) as Hpending.
    { subst closed. rewrite close_eq. simpl.
      rewrite settled_all_lookup by done.
      rewrite decide_False.
      - by rewrite lookup_app_r, Nat.sub_diag.
      - intros Hin. apply list_elem_of_fmap in Hin as ([k p'] & Heq & Hin).
        simpl in Heq. subst p'. apply elem_of_map_to_list in Hin.
        specialize (Hslots k _ Hin). lia. }
    split; [|split; [done |split]].
    + rewrite Hpromises, Hcall. by rewrite lookup_app_r, Nat.sub_diag.
    + subst closed. rewrite close_eq. by simpl.
    + intros Hready Hqueue.
      assert (end_of_turn closed
              = send_body call.1 method params
                  (set_awaiting_ready [] closed)) as Hturn.
      { subst closed. rewrite close_eq. unfold end_of_turn. simpl.
        rewrite Hready, Hqueue. done. }
      rewrite Hturn.
      destruct (send_body_fields_at call.1 method params
                  (set_awaiting_ready [] closed)) as (-> & ->).
      split; [|done]. subst closed. rewrite close_eq. by simpl.
Qed.

(** ** CDPSession: send *)

Lemma send_opened method params w :
  ready w = Opened →
  send method params w
  = (length (promises w),
     ws_send {| out_id := id_ w + 1; out_method := method;
                out_params := params |}
       (set_callbacks (<[id_ w + 1 := length (promises w)]> (callbacks w))
          (set_id (id_ w + 1) (set_promises (promises w ++ [Pending]) w)))).
Proof. intros Hready. unfold send, new_promise. simpl. by rewrite Hready. Qed.

Lemma ws_send_fields f w :
  id_ (ws_send f w) = id_ w
  ∧ callbacks (ws_send f w) = callbacks w
  ∧ eventListeners (ws_send f w) = eventListeners w
  ∧ ready (ws_send f w) = ready w
  ∧ terminated (ws_send f w) = terminated w
  ∧ promises (ws_send f w) = promises w.
Proof. unfold ws_send. by destruct (terminated w) eqn:Hterminated. Qed.

Lemma send_fields method params w :
  ready w = Opened →
  let call := send method params w in
  call.1 = length (promises w)
  ∧ id_ call.2 = id_ w + 1
  ∧ callbacks call.2 = <[id_ w + 1 := call.1]> (callbacks w)
  ∧ eventListeners call.2 = eventListeners w
  ∧ ready call.2 = Opened
  ∧ terminated call.2 = terminated w
  ∧ promises call.2 = promises w ++ [Pending].
Proof.
  intros Hready. simpl. rewrite send_opened by done. simpl.
  match goal with |- context [ws_send ?f ?w'] =>
    destruct (ws_send_fields f w') as (-> & -> & -> & -> & -> & ->) end.
  by simpl.
Qed.






(** ** CDPSession: replies find their calls *)

(** What [handleMessage] does with a frame that carries an [id]. *)
Lemma handleMessage_reply data id w :
  frame_id data = Some id →
  handleMessage data w
  = match callbacks_get id w with
    | Some (k, p) =>
        (settle p (carried data) (set_callbacks (delete k (callbacks w)) w),
         None)
    | None => (w, None)
    end.
Proof.
  unfold frame_id, handleMessage, carried.
  destruct (JSON.parse data) as [msg|]; [simpl | done].
  intros Hid. unfold dispatch. rewrite Hid.
  destruct msg; try done.
  destruct (callbacks_get id w) as [[k p]|]; [|done].
  by destruct (truthy _).
Qed.

Lemma callbacks_get_Some id w k p :
  callbacks_get id w = Some (k, p)
  ↔ as_integer id = Some k ∧ callbacks w !! k = Some p.
Proof.
  unfold callbacks_get. destruct (as_integer id) as [k'|]; simpl.
  - destruct (callbacks w !! k') as [p'|] eqn:Hk'; simpl;
      (split; [intros ? | intros [? ?]]); by simplify_eq.
  - split; [intros ? | intros [? ?]]; by simplify_eq.
Qed.

Lemma callbacks_get_None id w :
  callbacks_get id w = None
  ↔ ∀ k, as_integer id = Some k → callbacks w !! k = None.
Proof.
  unfold callbacks_get. destruct (as_integer id) as [k'|]; simpl.
  - destruct (callbacks w !! k') as [p'|] eqn:Hk'; simpl; split.
    + done.
    + intros Hnone. specialize (Hnone k' eq_refl). congruence.
    + intros _ k [= <-]. done.
    + done.
  - split; [by intros _ k ? | done].
Qed.

Lemma reply_to_true k data :
  reply_to k data = true ↔ frame_id data ≫= as_integer = Some k.
Proof. unfold reply_to. by rewrite bool_decide_eq_true. Qed.

Lemma find_snoc {A} (f : A → bool) (l : list A) (x : A) :
  List.find f (l ++ [x])
  = match List.find f l with
    | Some y => Some y
    | None => if f x then Some x else None
    end.
Proof.
  induction l as [|y l IH]; simpl; [done |]. by destruct (f y).
Qed.

Lemma NoDup_snd_inj {A B} (l : list (A * B)) a a' b :
  NoDup l.*2 → (a, b) ∈ l → (a', b) ∈ l → a = a'.
Proof.
  induction l as [|[x y] l IH]; simpl; intros Hnd Ha Ha'.
  - by apply elem_of_nil in Ha.
  - apply NoDup_cons in Hnd as [Hy Hnd].
    apply elem_of_cons in Ha as [[= -> ->] | Ha];
      apply elem_of_cons in Ha' as [[= ->] | Ha']; try done.
    + destruct Hy. apply list_elem_of_fmap. by exists (a', y).
    + subst. destruct Hy. apply list_elem_of_fmap. by exists (a, y).
    + by apply IH.
Qed.

Lemma reply_carries k data : reply_to k data = true → carried data ≠ Pending.
Proof.
  intros Hk%reply_to_true. unfold frame_id, carried in *.
  destruct (JSON.parse data) as [msg|]; [|done].
  by destruct (truthy _).
Qed.

(** One reply: the call it answers takes what it carries, the other
    calls stay as they are. *)
Lemma reply_step slots seen data w :
  NoDup slots.*2 →
  is_Some (frame_id data) →
  Forall (call_state seen w) slots →
  calls_apart slots w →
  Forall (call_state (seen ++ [data]) (onmessage data w)) slots
  ∧ calls_apart slots (onmessage data w).
Proof.
  intros Hnd [id Hid] Hstate Hapart. unfold onmessage.
  rewrite (handleMessage_reply data id w Hid).
  destruct (callbacks_get id w) as [[k' p']|] eqn:Hget; simpl.
  - apply callbacks_get_Some in Hget as [Hint Hk'].
    rewrite settle_eq. split.
    + apply Forall_forall. intros [k p] Hin.
      rewrite Forall_forall in Hstate. specialize (Hstate _ Hin).
      unfold call_state in *. rewrite find_snoc. simpl in *.
      destruct (List.find (reply_to k) seen) as [d|] eqn:Hfind.
      * destruct Hstate as [Hk Hp]. split.
        -- apply lookup_delete_None. by right.
        -- apply settled_stable; [done |].
           apply find_some in Hfind as [_ Hd]. by eapply reply_carries.
      * destruct Hstate as [Hk Hp].
        destruct (reply_to k data) eqn:Hreply.
        -- apply reply_to_true in Hreply. rewrite Hid in Hreply.
           simpl in Hreply. assert (k' = k) as -> by congruence.
           assert (p' = p) as -> by congruence. split.
           ++ by apply lookup_delete_eq.
           ++ by apply settled_pending.
        -- assert (k ≠ k') as Hne.
           { intros ->. apply not_true_iff_false in Hreply. apply Hreply.
             apply reply_to_true. by rewrite Hid. }
           split.
           ++ by rewrite lookup_delete_ne.
           ++ rewrite settled_other; [done |]. intros ->.
              apply Hne. eapply (NoDup_snd_inj slots); [done | done |].
              apply Hapart; [done |].
              apply list_elem_of_fmap. by exists (k, p').
    + intros k p Hk Hp. simpl in Hk.
      apply lookup_delete_Some in Hk as [_ Hk]. by apply Hapart.
  - split; [|done].
    apply Forall_forall. intros [k p] Hin.
    rewrite Forall_forall in Hstate. specialize (Hstate _ Hin).
    unfold call_state in *. rewrite find_snoc. simpl in *.
    destruct (List.find (reply_to k) seen) as [d|]; [done |].
    destruct (reply_to k data) eqn:Hreply; [|done].
    apply reply_to_true in Hreply. rewrite Hid in Hreply. simpl in Hreply.
    rewrite callbacks_get_None in Hget. rewrite (Hget k Hreply) in Hstate.
    by destruct Hstate.
Qed.

Lemma receive_all_snoc seen data w :
  receive_all (seen ++ [data]) w = onmessage data (receive_all seen w).
Proof. unfold receive_all. by rewrite foldl_app. Qed.

Lemma replies_routed slots frames w :
  NoDup slots.*2 →
  Forall (λ data, is_Some (frame_id data)) frames →
  Forall (call_state [] w) slots →
  calls_apart slots w →
  Forall (call_state frames (receive_all frames w)) slots
  ∧ calls_apart slots (receive_all frames w).
Proof.
  intros Hnd Hframes Hstate Hapart.
  induction frames as [|data seen IH] using rev_ind; [done |].
  apply Forall_app in Hframes as [Hseen Hdata].
  rewrite Forall_singleton in Hdata.
  destruct (IH Hseen) as [IHstate IHapart].
  rewrite receive_all_snoc. by apply reply_step.
Qed.

(** Calls made one after the other take request ids that go up, and
    promises made anew. *)
Lemma sent_slots_spec calls w :
  ready w = Opened →
  let sent := sent_slots calls w in
  ready sent.2 = Opened
  ∧ length sent.1 = length calls
  ∧ id_ w <= id_ sent.2
  ∧ (length (promises w) ≤ length (promises sent.2))%nat
  ∧ (∀ p : nat, (p < length (promises w))%nat →
       promises sent.2 !! p = promises w !! p)
  ∧ (∀ k, k <= id_ w → callbacks sent.2 !! k = callbacks w !! k)
  ∧ (∀ k p, callbacks sent.2 !! k = Some p →
       (k, p) ∈ sent.1 ∨ callbacks w !! k = Some p)
  ∧ Forall (λ slot, id_ w < slot.1
                    ∧ (length (promises w) ≤ slot.2)%nat
                    ∧ callbacks sent.2 !! slot.1 = Some slot.2
                    ∧ promises sent.2 !! slot.2 = Some Pending) sent.1.
Proof.
  revert w. induction calls as [|[method params] calls IH]; intros w Hready.
  - simpl. repeat split; try done; try lia. auto.
  - simpl.
    destruct (send_fields method params w Hready)
      as (Hp & Hid & Hcb & _ & Hready1 & _ & Hps).
    destruct (send method params w) as [p w1] eqn:Hsend. simpl in *.
    specialize (IH w1 Hready1).
    destruct (sent_slots calls w1) as [slots w2] eqn:Hall. simpl in *.
    destruct IH
      as (Hready2 & Hlen & Hid2 & Hlen2 & Hold & Hkeys & Hcbs & Hslots).
    assert (length (promises w1) = S (length (promises w))) as Hlen1
      by (rewrite Hps, length_app; simpl; lia).
    repeat split.
    + done.
    + by rewrite Hlen.
    + lia.
    + lia.
    + intros q Hq. rewrite Hold by lia. rewrite Hps. by apply lookup_app_l.
    + intros k Hk. rewrite Hkeys by lia. rewrite Hcb.
      apply lookup_insert_ne. lia.
    + intros k q Hk. destruct (Hcbs k q Hk) as [Hin | Hw1].
      * left. by right.
      * rewrite Hcb in Hw1. apply lookup_insert_Some in Hw1 as [[<- <-]|[_ ?]].
        -- left. rewrite Hid. by left.
        -- by right.
    + apply Forall_cons. split.
      * simpl. repeat split.
        -- lia.
        -- lia.
        -- rewrite Hkeys by lia. rewrite Hcb, Hid. apply lookup_insert_eq.
        -- rewrite Hold by lia. rewrite Hps, Hp.
           by rewrite lookup_app_r, Nat.sub_diag.
      * eapply Forall_impl; [exact Hslots |]. simpl.
        intros [k q] (Hk & Hq & Hkq & Hpending). simpl in *.
        repeat split; try done; lia.
Qed.

Lemma sent_slots_apart calls w :
  ready w = Opened →
  slots_allocated w →
  let sent := sent_slots calls w in
  NoDup sent.1.*2 ∧ calls_apart sent.1 sent.2.
Proof.
  revert w. induction calls as [|[method params] calls IH];
    intros w Hready Halloc.
  - simpl. split; [constructor |]. intros k p _ Hin.
    by apply elem_of_nil in Hin.
  - pose proof (sent_slots_spec ((method, params) :: calls) w Hready) as Hspec.
    simpl in *.
    destruct (send_fields method params w Hready)
      as (Hp & Hid & Hcb & _ & Hready1 & _ & Hps).
    destruct (send method params w) as [p w1] eqn:Hsend. simpl in *.
    pose proof (sent_slots_spec calls w1 Hready1) as Hspec1.
    assert (slots_allocated w1) as Halloc1.
    { intros k q. rewrite Hcb, Hps, length_app. simpl.
      intros [[_ <-]|[_ Hk]]%lookup_insert_Some; [lia |].
      apply Halloc in Hk. lia. }
    specialize (IH w1 Hready1 Halloc1).
    destruct (sent_slots calls w1) as [slots w2] eqn:Hall. simpl in *.
    destruct IH as [Hnd Hapart].
    destruct Hspec1 as (_ & _ & _ & _ & _ & _ & _ & Hslots).
    destruct Hspec as (_ & _ & _ & _ & _ & _ & Hcbs & _).
    assert (p ∉ slots.*2) as Hfresh.
    { intros ([k q] & Heq & Hin)%list_elem_of_fmap. simpl in Heq. subst q.
      rewrite Forall_forall in Hslots.
      destruct (Hslots _ Hin) as (_ & Hq & _). simpl in Hq.
      rewrite Hps, length_app in Hq. simpl in Hq. lia. }
    split; [by apply NoDup_cons |].
    intros k q Hk Hq. destruct (Hcbs k q Hk) as [Hin | Hw]; [done |].
    apply Halloc in Hw.
    apply elem_of_cons in Hq as [-> | Hq].
    { simpl in Hw. lia. }
    apply list_elem_of_fmap in Hq as ([k' q'] & Heq & Hin).
    simpl in Heq. subst q'.
    rewrite Forall_forall in Hslots.
    destruct (Hslots _ Hin) as (_ & Hq' & _). simpl in Hq'.
    rewrite Hps, length_app in Hq'. simpl in Hq'. lia.
Qed.

(** On an open session: the calls and the replies to them. *)
Lemma replies_settle_slots
    (calls : list (string * list (string * option json)))
    (frames : list string) (w : World) :
  ready w = Opened →
  slots_allocated w →
  Forall (λ data, is_Some (frame_id data)) frames →
  let sent := sent_slots calls w in
  let w' := receive_all frames sent.2 in
  length sent.1 = length calls
  ∧ NoDup sent.1.*1
  ∧ (∀ k p, (k, p) ∈ sent.1 →
       promises w' !! p
       = Some (match List.find (reply_to k) frames with
               | Some data => carried data
               | None => Pending
               end)
       ∧ callbacks w' !! k
         = match List.find (reply_to k) frames with
           | Some _ => None
           | None => Some p
           end)
  ∧ (∀ data id w0, frame_id data = Some id → callbacks_get id w0 = None →
       handleMessage data w0 = (w0, None)).
Proof.
  intros Hready Halloc Hframes sent w'.
  destruct (sent_slots_spec calls w Hready)
    as (_ & Hlen & _ & _ & _ & _ & Hcbs & Hslots).
  destruct (sent_slots_apart calls w Hready Halloc) as [Hnd Hapart].
  fold sent in Hlen, Hcbs, Hslots, Hnd, Hapart.
  assert (Forall (call_state [] sent.2) sent.1) as Hstart.
  { eapply Forall_impl; [exact Hslots |].
    intros [k p] (_ & _ & Hk & Hp). by split. }
  destruct (replies_routed sent.1 frames sent.2 Hnd Hframes Hstart Hapart)
    as [Hend _].
  fold w' in Hend. split; [done |]. split; [|split].
  - clear -Hslots Hnd. induction sent.1 as [|[k p] slots IH]; [constructor |].
    simpl in *. apply Forall_cons in Hslots as [(_ & _ & Hk & _) Hslots].
    apply NoDup_cons in Hnd as [Hp Hnd]. apply NoDup_cons. split; [|auto].
    intros ([k' p'] & Heq & Hin)%list_elem_of_fmap. simpl in *. subst k'.
    rewrite Forall_forall in Hslots.
    destruct (Hslots _ Hin) as (_ & _ & Hk' & _). simpl in Hk'.
    apply Hp. apply list_elem_of_fmap. exists (k, p').
    split; [simpl; congruence | done].
  - intros k p Hin. rewrite Forall_forall in Hend. specialize (Hend _ Hin).
    unfold call_state in Hend. simpl in Hend.
    destruct (List.find (reply_to k) frames); by destruct Hend as [-> ->].
  - intros data id w0 Hid Hget.
    by rewrite (handleMessage_reply data id w0 Hid), Hget.
Qed.

(** *** Calls made while the socket is connecting *)

Lemma send_body_set_promises p method params ps w :
  send_body p method params (set_promises ps w)
  = set_promises ps (send_body p method params w).
Proof. unfold send_body, ws_send. simpl. by destruct (terminated w). Qed.

Lemma flush_set_promises queue ps w :
  flush queue (set_promises ps w) = set_promises ps (flush queue w).
Proof.
  revert w. induction queue as [|[[p method] params] queue IH]; intros w;
    [done |].
  unfold flush in *. simpl. by rewrite send_body_set_promises, IH.
Qed.

Lemma send_body_fields p method params w :
  promises (send_body p method params w) = promises w
  ∧ ready (send_body p method params w) = ready w
  ∧ callbacks (send_body p method params w) = <[id_ w + 1 := p]> (callbacks w).
Proof. unfold send_body, ws_send. simpl. by destruct (terminated w). Qed.

Lemma flush_fields queue w :
  promises (flush queue w) = promises w ∧ ready (flush queue w) = ready w.
Proof.
  revert w. induction queue as [|[[p method] params] queue IH]; intros w;
    [done |].
  unfold flush in *. simpl.
  destruct (IH (send_body p method params w)) as [-> ->].
  by destruct (send_body_fields p method params w) as (-> & -> & _).
Qed.

Lemma flush_allocated queue w :
  slots_allocated w →
  Forall (λ call, (call.1.1 < length (promises w))%nat) queue →
  slots_allocated (flush queue w).
Proof.
  revert w. induction queue as [|[[p method] params] queue IH];
    intros w Hslots Hqueue; [done |].
  apply Forall_cons in Hqueue as [Hp Hqueue]. simpl in Hp.
  unfold flush in *. simpl.
  destruct (send_body_fields p method params w) as (Hps & _ & Hcb).
  apply IH.
  - intros k q. rewrite Hps, Hcb.
    intros [[_ <-]|[_ Hk]]%lookup_insert_Some; [done |]. by eapply Hslots.
  - by rewrite Hps.
Qed.

Lemma onopen_connecting w :
  ready w = Connecting →
  onopen w
  = flush (awaiting_ready w) (set_awaiting_ready [] (set_ready Opened w)).
Proof. intros Hready. unfold onopen. by rewrite Hready. Qed.

Lemma onopen_opened w : ready w = Opened → onopen w = w.
Proof. intros Hready. unfold onopen. by rewrite Hready. Qed.

Lemma onopen_fields w :
  ready w = Connecting →
  ready (onopen w) = Opened ∧ promises (onopen w) = promises w.
Proof.
  intros Hready. rewrite onopen_connecting by done.
  by destruct (flush_fields (awaiting_ready w)
                 (set_awaiting_ready [] (set_ready Opened w))) as [-> ->].
Qed.

(** A call made while the socket is connecting, once the socket has
    opened, stands as if it had been made then. *)
Lemma send_then_onopen method params w :
  ready w = Connecting →
  (send method params w).1 = (send method params (onopen w)).1
  ∧ ready (send method params w).2 = Connecting
  ∧ onopen (send method params w).2 = (send method params (onopen w)).2.
Proof.
  intros Hready. destruct (onopen_fields w Hready) as [Hopened Hps].
  rewrite (send_opened method params (onopen w) Hopened).
  unfold send, new_promise. simpl. rewrite Hready, Hps. simpl.
  split; [done |]. split; [done |].
  rewrite !onopen_connecting by done. simpl.
  unfold flush at 1. rewrite foldl_app. simpl.
  fold (flush (awaiting_ready w)
          (set_awaiting_ready [] (set_ready Opened
             (set_awaiting_ready
                (awaiting_ready w ++ [(length (promises w), method, params)])
                (set_promises (promises w ++ [Pending]) w))))).
  change (set_awaiting_ready [] (set_ready Opened
            (set_awaiting_ready
               (awaiting_ready w ++ [(length (promises w), method, params)])
               (set_promises (promises w ++ [Pending]) w))))
    with (set_promises (promises w ++ [Pending])
            (set_awaiting_ready [] (set_ready Opened w))).
  rewrite flush_set_promises. unfold send_body at 1. simpl.
  unfold send_body. simpl. done.
Qed.

Lemma send_all_opened calls w :
  ready w = Opened →
  (send_all calls w).1 = (sent_slots calls w).1.*2
  ∧ (send_all calls w).2 = (sent_slots calls w).2.
Proof.
  revert w. induction calls as [|[method params] calls IH]; intros w Hready;
    [done |].
  simpl.
  destruct (send_fields method params w Hready) as (_ & _ & _ & _ & Hr & _).
  destruct (send method params w) as [p w1]. simpl in Hr.
  destruct (IH w1 Hr) as [IHps IHw].
  destruct (send_all calls w1) as [ps w2].
  destruct (sent_slots calls w1) as [slots w2']. simpl in *.
  by rewrite IHps, IHw.
Qed.

Lemma send_all_connecting calls w :
  ready w = Connecting →
  (send_all calls w).1 = (sent_slots calls (onopen w)).1.*2
  ∧ onopen (send_all calls w).2 = (sent_slots calls (onopen w)).2.
Proof.
  revert w. induction calls as [|[method params] calls IH]; intros w Hready;
    [done |].
  simpl.
  destruct (send_then_onopen method params w Hready) as (Hp & Hr & Hw).
  destruct (send method params w) as [p w1].
  destruct (send method params (onopen w)) as [p' w1']. simpl in *.
  subst p' w1'.
  destruct (IH w1 Hr) as [IHps IHw].
  destruct (send_all calls w1) as [ps w2].
  destruct (sent_slots calls (onopen w1)) as [slots w2']. simpl in *.
  by rewrite IHps, IHw.
Qed.

(** C1.  Let calls of [send] be made on a session whose socket is open
    or still connecting, let the socket open if it had not, and let
    replies then come in, in any order and number.  Each call has a
    request id of its own, under which its promise is registered.  Each
    call's promise ends up with what the first reply with its request id
    carried (its error, or else its result), and stays pending if no
    reply has its id; the slot of a call is there until that reply and
    gone after it.  A reply whose id finds no slot, as after its call
    has been answered, changes nothing. *)
Theorem C1_replies_settle_their_own_calls
    (calls : list (string * list (string * option json)))
    (frames : list string) (w : World) :
  ready w = Opened ∨ ready w = Connecting →
  slots_allocated w →
  queue_allocated w →
  Forall (λ data, is_Some (frame_id data)) frames →
  let made := send_all calls w in
  let opened := onopen made.2 in
  let w' := receive_all frames opened in
  (∃ ids,
     length ids = length calls ∧ length made.1 = length calls ∧ NoDup ids
     ∧ ∀ (i : nat) k p, ids !! i = Some k → made.1 !! i = Some p →
         callbacks opened !! k = Some p
         ∧ promises w' !! p
           = Some (match List.find (reply_to k) frames with
                   | Some data => carried data
                   | None => Pending
                   end)
         ∧ callbacks w' !! k
           = match List.find (reply_to k) frames with
             | Some _ => None
             | None => Some p
             end)
  ∧ (∀ data id w0, frame_id data = Some id → callbacks_get id w0 = None →
       handleMessage data w0 = (w0, None)).
Proof.
  intros Hready Hslots Hqueue Hframes made opened w'.
  assert (∃ w0, ready w0 = Opened ∧ slots_allocated w0
                ∧ made.1 = (sent_slots calls w0).1.*2
                ∧ opened = (sent_slots calls w0).2)
    as (w0 & Hready0 & Hslots0 & Hmade & Hopened).
  { destruct Hready as [Hready | Hready].
    - exists w. destruct (send_all_opened calls w Hready) as [Hps Hw].
      destruct (sent_slots_spec calls w Hready) as (Hr & _).
      repeat split; try done. subst opened made.
      rewrite onopen_opened; [done |]. by rewrite Hw.
    - exists (onopen w).
      destruct (send_all_connecting calls w Hready) as [Hps Hw].
      destruct (onopen_fields w Hready) as [Hr _].
      repeat split; try done.
      rewrite onopen_connecting by done. apply flush_allocated; [done |].
      exact Hqueue. }
  destruct (replies_settle_slots calls frames w0 Hready0 Hslots0 Hframes)
    as (Hlen & Hnd & Hcalls & Hdropped).
  destruct (sent_slots_spec calls w0 Hready0)
    as (_ & _ & _ & _ & _ & _ & _ & Hregistered).
  subst w'. rewrite Hopened, Hmade. clear Hopened Hmade.
  split; [|exact Hdropped].
  exists (sent_slots calls w0).1.*1.
  rewrite !length_fmap. split; [done |]. split; [done |]. split; [done |].
  intros i k p Hk Hp.
  rewrite list_lookup_fmap in Hk. rewrite list_lookup_fmap in Hp.
  destruct ((sent_slots calls w0).1 !! i) as [[k' p']|] eqn:Hi; [|done].
  simpl in Hk, Hp. simplify_eq.
  assert ((k, p) ∈ (sent_slots calls w0).1) as Hin
    by (apply list_elem_of_lookup; by exists i).
  split; [|by apply Hcalls].
  rewrite Forall_forall in Hregistered.
  by destruct (Hregistered _ Hin) as (_ & _ & Hkp & _).
Qed.

Lemma new_world_allocated :
  slots_allocated new_world ∧ queue_allocated new_world.
Proof. split; [intros k p Hk; by vm_compute in Hk | constructor]. Qed.

(** The four calls of [Page.create] are made while the socket connects;
    the replies come in another order, one of them an error, one of them
    twice. *)
Lemma C1_replies_settle_their_own_calls_witness :
  let made :=
    send_all [("Page.enable", []); ("Runtime.enable", []);
              ("DOM.enable", []); ("Network.enable", [])] new_world in
  let w' :=
    receive_all [reply_result "2"; reply_error "1"; reply_error "2";
                 reply_result "4"] (onopen made.2) in
  made.1 = [0; 1; 2; 3]%nat
  ∧ promises w' !! 0%nat = Some (Rejected (ErrorOf (Some (JStr "No node"))))
  ∧ promises w' !! 1%nat = Some (Fulfilled (VResult (Some (JObj []))))
  ∧ promises w' !! 2%nat = Some Pending.
Proof.
  assert (Forall (λ data, is_Some (frame_id data))
            [reply_result "2"; reply_error "1"; reply_error "2";
             reply_result "4"]) as Hframes.
  { repeat constructor; vm_compute; eauto. }
  destruct (C1_replies_settle_their_own_calls
              [("Page.enable", []); ("Runtime.enable", []);
               ("DOM.enable", []); ("Network.enable", [])]
              [reply_result "2"; reply_error "1"; reply_error "2";
               reply_result "4"]
              new_world (or_intror eq_refl) (proj1 new_world_allocated)
              (proj2 new_world_allocated) Hframes)
    as [(ids & Hlen & _ & _ & Hcalls) _].
  destruct ids as [|k1 [|k2 [|k3 [|k4 [|]]]]]; try discriminate Hlen.
  destruct (Hcalls 0%nat k1 0%nat eq_refl eq_refl) as (Hk1 & Hp1 & _).
  destruct (Hcalls 1%nat k2 1%nat eq_refl eq_refl) as (Hk2 & Hp2 & _).
  destruct (Hcalls 2%nat k3 2%nat eq_refl eq_refl) as (Hk3 & Hp3 & _).
  assert (∀ k p,
            callbacks
              (onopen
                 (send_all [("Page.enable", []); ("Runtime.enable", []);
                            ("DOM.enable", []); ("Network.enable", [])]
                    new_world).2) !! k = Some p →
            (k, p) ∈ [(1, 0%nat); (2, 1%nat); (3, 2%nat); (4, 3%nat)])
    as Hslots.
  { intros k p Hk.
    apply (elem_of_list_to_map_2 (M := gmap Z)
             [(1, 0%nat); (2, 1%nat); (3, 2%nat); (4, 3%nat)]).
    exact Hk. }
  apply Hslots in Hk1, Hk2, Hk3.
  assert (k1 = 1) as ->.
  { clear -Hk1.
    repeat (apply elem_of_cons in Hk1 as [Hk1 | Hk1]; [by simplify_eq |]).
    by apply elem_of_nil in Hk1. }
  assert (k2 = 2) as ->.
  { clear -Hk2.
    repeat (apply elem_of_cons in Hk2 as [Hk2 | Hk2]; [by simplify_eq |]).
    by apply elem_of_nil in Hk2. }
  assert (k3 = 3) as ->.
  { clear -Hk3.
    repeat (apply elem_of_cons in Hk3 as [Hk3 | Hk3]; [by simplify_eq |]).
    by apply elem_of_nil in Hk3. }
  split; [reflexivity |]. split; [exact Hp1 |]. split; [exact Hp2 | exact Hp3].
Defined.

(** A reply is told by the number its [id] is read as, and an [error]
    that is read as 0 is none. *)
Example replies_are_read_as_binary64 :
  let w := (send "Page.enable" [] open_world).2 in
  reply_to 1 (reply_result "1.0000000000000000001") = true
  ∧ promises (onmessage (reply_result "1.0000000000000000001") w) !! 0%nat
    = Some (Fulfilled (VResult (Some (JObj []))))
  ∧ carried ("{" +:+ quoted "id" +:+ ":1," +:+ quoted "error" +:+ ":1e-400}")
    = Fulfilled (VResult None)
  ∧ as_integer (JNum 1 999) = None.
Proof. by vm_compute. Qed.

Lemma open_world_allocated : slots_allocated open_world.
Proof. intros k p Hk. by vm_compute in Hk. Qed.

Lemma C2_close_rejects_every_pending_call_witness :
  let w := (send "Page.enable" [] open_world).2 in
  callbacks w !! 1 = Some 0%nat
  ∧ promises w !! 0%nat = Some Pending
  ∧ promises (close w) !! 0%nat
    = Some (Rejected (Error "Connection closed")).
Proof.
  split; [reflexivity |]. split; [reflexivity |].
  destruct (C2_close_rejects_every_pending_call
              (send "Page.enable" [] open_world).2) as [Hrejects _].
  by apply (Hrejects 1 0%nat).
Defined.

(** The four calls of [Page.create] wait for the socket to open:
    [close()] rejects none of them.  And a call made on an open socket
    in the turn of [close()], before it, is pending after [close()] and
    after the turn. *)
Lemma C2_counterexample :
  (let made :=
     send_all [("Page.enable", []); ("Runtime.enable", []);
               ("DOM.enable", []); ("Network.enable", [])] new_world in
   made.1 = [0; 1; 2; 3]%nat
   ∧ promises made.2 = [Pending; Pending; Pending; Pending]
   ∧ promises (close made.2) = [Pending; Pending; Pending; Pending])
  ∧ (let call := send_call "Page.enable" [] open_world in
     promises (close call.2) !! call.1 = Some Pending
     ∧ promises (end_of_turn (close call.2)) !! call.1 = Some Pending
     ∧ promises (close call.2) !! call.1
       ≠ Some (Rejected (Error "Connection closed"))).
Proof. by vm_compute. Qed.


(** ** Screencast *)

(** The fields a step leaves alone are read off after unfolding it. *)
Ltac untouched :=
  repeat first
    [ rewrite settle_eq
    | progress simpl
    | progress unfold resolve, reject, on, off, clearTimeout, send,
        send_body, ws_send, new_promise, new_function, setTimeout
    | case_match ];
  try done.

Lemma send_frames method params w :
  frames (send method params w).2 = frames w
  ∧ recording (send method params w).2 = recording w.
Proof. split; untouched. Qed.

Lemma off_frames event callback w :
  frames (off event callback w) = frames w
  ∧ recording (off event callback w) = recording w.
Proof. split; untouched. Qed.

(** While nothing is being recorded, no listener touches the frames. *)
Lemma invoke_frames f params w :
  recording w = false →
  frames (invoke f params w).1 = frames w
  ∧ recording (invoke f params w).1 = false.
Proof.
  intros Hrec. unfold invoke. rewrite Hrec.
  split; untouched.
Qed.

Lemma for_of_frames snapshot event params w :
  recording w = false →
  frames (for_of snapshot event params w).1 = frames w
  ∧ recording (for_of snapshot event params w).1 = false.
Proof.
  revert w. induction snapshot as [|listener rest IH]; intros w Hrec;
    simpl; [done |].
  case_decide; [|by apply IH].
  destruct (invoke_frames listener params w Hrec) as [Hframes Hrec'].
  destruct (invoke listener params w) as [w1 [e|]]; simpl in *; [done |].
  destruct (IH w1 Hrec') as [IHframes IHrec]. by rewrite IHframes.
Qed.

Lemma handleMessage_frames data w :
  recording w = false →
  frames (handleMessage data w).1 = frames w
  ∧ recording (handleMessage data w).1 = false.
Proof.
  intros Hrec. unfold handleMessage, dispatch.
  repeat case_match; simpl; try done;
    try (by apply for_of_frames);
    unfold resolve, reject; by rewrite settle_eq.
Qed.

Lemma fire_timer_frames t w :
  frames (fire_timer t w) = frames w
  ∧ recording (fire_timer t w) = recording w.
Proof. unfold fire_timer. split; untouched. Qed.

Lemma close_frames w :
  frames (close w) = frames w ∧ recording (close w) = recording w.
Proof. by rewrite close_eq. Qed.

Lemma foldl_frames {X} (f : World → X → World) (queue : list X) w :
  (∀ w x, frames (f w x) = frames w ∧ recording (f w x) = recording w) →
  frames (foldl f w queue) = frames w
  ∧ recording (foldl f w queue) = recording w.
Proof.
  intros Hf. revert w. induction queue as [|x queue IH]; intros w; [done |].
  simpl. destruct (IH (f w x)) as [-> ->]. apply Hf.
Qed.

Lemma onopen_frames w :
  frames (onopen w) = frames w ∧ recording (onopen w) = recording w.
Proof.
  unfold onopen. destruct (ready w); try done.
  match goal with |- context [foldl ?f ?w0 ?queue] =>
    destruct (foldl_frames f queue w0) as [-> ->]; [|done] end.
  intros w0 [[p method] params]. split; untouched.
Qed.

Lemma onerror_frames e w :
  frames (onerror e w) = frames w ∧ recording (onerror e w) = recording w.
Proof.
  unfold onerror. destruct (ready w); try done.
  match goal with |- context [foldl ?f ?w0 ?queue] =>
    destruct (foldl_frames f queue w0) as [-> ->]; [|done] end.
  intros w0 [[p method] params]. unfold reject. by rewrite settle_eq.
Qed.

Lemma page_calls_frames w :
  (∀ options, frames (waitForNavigation options w).2 = frames w
              ∧ recording (waitForNavigation options w).2 = recording w)
  ∧ (∀ url options, frames (goto url options w).2 = frames w
                    ∧ recording (goto url options w).2 = recording w)
  ∧ (∀ options, frames (reload options w).2 = frames w
                ∧ recording (reload options w).2 = recording w)
  ∧ (∀ kind m timeout,
       frames (waitForTraffic kind m timeout w).2 = frames w
       ∧ recording (waitForTraffic kind m timeout w).2 = recording w)
  ∧ (∀ k kb, frames (down k kb w).2 = frames w
             ∧ recording (down k kb w).2 = recording w)
  ∧ (∀ k kb, frames (up k kb w).2 = frames w
             ∧ recording (up k kb w).2 = recording w).
Proof.
  unfold waitForNavigation, goto, reload, waitForTraffic, down, up,
    loadPromise, timeoutPromise.
  repeat split; untouched; simplify_eq; untouched.
Qed.

Lemma page_resumes_frames w w' :
  ((∃ n r, after_command n w = Returns r w')
   ∨ (∃ r, after_race r w = Returns () w')
   ∨ (∃ r e, after_race r w = Throws e w')) →
  frames w' = frames w ∧ recording w' = recording w.
Proof.
  unfold after_command, after_race, timeoutPromise, setTimeout, new_promise.
  intros [(n & r & Hn) | [(r & Hr) | (r & e & Hr)]];
    repeat case_match; by simplify_eq.
Qed.

Lemma after_stop_returns command w recorded w' :
  after_stop command w = Returns recorded w' →
  recorded = frames w ∧ frames w' = frames w ∧ recording w' = false.
Proof.
  unfold after_stop. destruct (promises w !! command) as [[]|]; try done.
  intros [= <- <-]. simpl.
  destruct (frameHandler w) as [handler|]; simpl; [|done].
  by destruct (off_frames "Page.screencastFrame" handler w) as [-> _].
Qed.

Lemma without_start_keeps_frames w w' :
  rtc without_start w w' →
  recording w = false →
  frames w' = frames w ∧ recording w' = false.
Proof.
  induction 1 as [w | w1 w2 w3 Hstep _ IH]; intros Hrec; [done |].
  assert (frames w2 = frames w1 ∧ recording w2 = false) as [Hframes Hrec2].
  { destruct (page_calls_frames w1)
      as (Hwait & Hgoto & Hreload & Htraffic & Hdown & Hup).
    destruct Hstep as
      [w | e w | data w | t w | method params w | event callback w
      | event callback w | w | options w | url options w | options w
      | n w r w' Hresumed | r w w' Hresumed | r w e w' Hresumed
      | kind m timeout w | k kb w | k kb w | w
      | command w recorded w' Hstop | w | w].
    - destruct (onopen_frames w) as [-> ->]. done.
    - destruct (onerror_frames e w) as [-> ->]. done.
    - by apply handleMessage_frames.
    - destruct (fire_timer_frames t w) as [-> ->]. done.
    - destruct (send_frames method params w) as [-> ->]. done.
    - done.
    - destruct (off_frames event callback w) as [-> ->]. done.
    - destruct (close_frames w) as [-> ->]. done.
    - destruct (Hwait options) as [-> ->]. done.
    - destruct (Hgoto url options) as [-> ->]. done.
    - destruct (Hreload options) as [-> ->]. done.
    - destruct (page_resumes_frames w w') as [-> ->]; [|done].
      left. by exists n, r.
    - destruct (page_resumes_frames w w') as [-> ->]; [|done].
      right. left. by exists r.
    - destruct (page_resumes_frames w w') as [-> ->]; [|done].
      right. right. by exists r, e.
    - destruct (Htraffic kind m timeout) as [-> ->]. done.
    - destruct (Hdown k kb) as [-> ->]. done.
    - destruct (Hup k kb) as [-> ->]. done.
    - unfold stop. rewrite Hrec. done.
    - by apply after_stop_returns in Hstop as (_ & -> & ->).
    - done.
    - done. }
  destruct (IH Hrec2) as [-> ->]. by rewrite Hframes.
Qed.

(** C8.  [start()] while recording throws "Screencast already
    recording", and [stop()] while not recording throws "Screencast not
    recording", either leaving the screencast as it is.  After a [stop()]
    that has returned, [frameCount()] is the length of what it returned,
    and remains so until [start()] is called.  [start()] on a screencast
    that is not recording empties the frames and sets it recording.
    [isRecording()] and [frameCount()] change nothing. *)
Theorem C8_screencast_states (options : list (string * option json))
    (w : World) :
  (recording w = true →
   start options w = (inl (Error "Screencast already recording"), w))
  ∧ (recording w = false →
     stop w = (inl (Error "Screencast not recording"), w))
  ∧ (∀ command recorded w1,
       after_stop command w = Returns recorded w1 →
       recorded = frames w
       ∧ (isRecording w1).1 = false
       ∧ ∀ w2, rtc without_start w1 w2 →
           (frameCount w2).1 = length recorded)
  ∧ (recording w = false →
     ∃ command w1,
       start options w = (inr command, w1)
       ∧ frames w1 = [] ∧ (frameCount w1).1 = 0%nat
       ∧ (isRecording w1).1 = true)
  ∧ (isRecording w).2 = w
  ∧ (frameCount w).2 = w.
Proof.
  split; [|split; [|split; [|split; [|done]]]].
  - intros Hrec. unfold start. by rewrite Hrec.
  - intros Hrec. unfold stop. by rewrite Hrec.
  - intros command recorded w1 Hstop.
    apply after_stop_returns in Hstop as (-> & Hframes & Hrec).
    split; [done |]. split; [exact Hrec |].
    intros w2 Hsteps.
    destruct (without_start_keeps_frames w1 w2 Hsteps Hrec) as [Hsame _].
    simpl. by rewrite Hsame, Hframes.
  - intros Hrec. unfold start. rewrite Hrec.
    destruct (new_function FrameHandler (set_recording true (set_frames [] w)))
      as [handler w0] eqn:Hnew.
    destruct (send "Page.startScreencast" options
                (on "Page.screencastFrame" handler
                   (set_frameHandler (Some handler) w0)))
      as [command w1] eqn:Hsend.
    exists command, w1. split; [done |].
    pose proof (send_frames "Page.startScreencast" options
                  (on "Page.screencastFrame" handler
                     (set_frameHandler (Some handler) w0))) as [Hf Hr].
    rewrite Hsend in Hf, Hr. simpl in Hf, Hr.
    unfold new_function in Hnew. injection Hnew as <- <-.
    simpl in *. by rewrite Hf, Hr.
Qed.

Lemma C8_screencast_states_witness :
  let started := start [] open_world in
  recording started.2 = true
  ∧ start [] started.2
    = (inl (Error "Screencast already recording"), started.2)
  ∧ stop open_world = (inl (Error "Screencast not recording"), open_world).
Proof.
  split; [reflexivity |]. split.
  - by apply (C8_screencast_states [] (start [] open_world).2).
  - by apply (C8_screencast_states [] open_world).
Defined.

(** ** The navigation waits *)

Lemma set_add_fresh (f : nat) (s : list nat) : f ∉ s → set_add f s = s ++ [f].
Proof. intros Hf. unfold set_add. by rewrite decide_False. Qed.

Lemma listeners_fresh event w :
  listeners_allocated w →
  length (functions w) ∉ default [] (eventListeners w !! event).
Proof.
  intros Halloc Hin.
  destruct (eventListeners w !! event) as [listeners|] eqn:Hevent; simpl in Hin.
  - specialize (Halloc _ _ _ Hevent Hin). lia.
  - by apply elem_of_nil in Hin.
Qed.

Local Arguments settle : simpl never.
Local Arguments reject : simpl never.
Local Arguments resolve : simpl never.

Lemma settled_snoc ps o : settled (length ps) o (ps ++ [Pending]) = ps ++ [o].
Proof.
  unfold settled. rewrite list_lookup_middle by done.
  replace (length ps) with (length ps + 0)%nat by lia.
  by rewrite insert_app_r.
Qed.

Lemma snoc_lookup {A} (l : list A) (x : A) : (l ++ [x]) !! length l = Some x.
Proof. by apply list_lookup_middle. Qed.

Lemma waitForNavigation_timeout options w :
  listeners_allocated w →
  let event := eventName options in
  let started := waitForNavigation options w in
  let fired := fire_timer (race_timer started.1) started.2 in
  promises started.2 !! race_load started.1 = Some Pending
  ∧ promises started.2 !! race_timeout started.1 = Some Pending
  ∧ listener_count event started.2 = S (listener_count event w)
  ∧ after_race started.1 fired
    = Throws (Error (navigation_timeout (nav_timeout options)))
        (clearTimeout (race_timer started.1) fired)
  ∧ timed_out_wait options w = clearTimeout (race_timer started.1) fired
  ∧ eventListeners (timed_out_wait options w)
    = <[event := default [] (eventListeners w !! event)
                 ++ [length (functions w)]]> (eventListeners w)
  ∧ functions (timed_out_wait options w)
    = functions w ++ [LoadHandler event (length (promises w))].
Proof.
  intros Halloc event started fired.
  pose proof (listeners_fresh event w Halloc) as Hfresh.
  unfold timed_out_wait.
  subst started fired. unfold waitForNavigation, loadPromise, timeoutPromise.
  simpl. fold event. unfold on, listener_count. simpl.
  rewrite (set_add_fresh _ _ Hfresh).
  unfold fire_timer. simpl. rewrite !lookup_insert_eq. simpl.
  unfold reject. rewrite !settle_eq. simpl. rewrite !settled_snoc.
  unfold after_race, raced. simpl.
  rewrite (lookup_app_l (promises w ++ [Pending]))
    by (rewrite length_app; simpl; lia).
  rewrite !snoc_lookup. simpl.
  rewrite (lookup_app_l (promises w ++ [Pending]))
    by (rewrite length_app; simpl; lia).
  rewrite !snoc_lookup. simpl.
  rewrite length_app. simpl.
  repeat split; try done. lia.
Qed.

Lemma timed_out_wait_allocated options w :
  listeners_allocated w → listeners_allocated (timed_out_wait options w).
Proof.
  intros Halloc.
  destruct (waitForNavigation_timeout options w Halloc)
    as (_ & _ & _ & _ & _ & Hlisteners & Hfunctions).
  intros event listeners f. rewrite Hlisteners, Hfunctions, length_app. simpl.
  intros [[_ <-]|[_ Hevent]]%lookup_insert_Some Hf.
  - apply elem_of_app in Hf as [Hf | ->%list_elem_of_singleton]; [|lia].
    destruct (eventListeners w !! eventName options) as [old|] eqn:Hold;
      simpl in Hf.
    + specialize (Halloc _ _ _ Hold Hf). lia.
    + by apply elem_of_nil in Hf.
  - specialize (Halloc _ _ _ Hevent Hf). lia.
Qed.

Lemma timed_out_wait_count options w :
  listeners_allocated w →
  listener_count (eventName options) (timed_out_wait options w)
  = S (listener_count (eventName options) w).
Proof.
  intros Halloc.
  destruct (waitForNavigation_timeout options w Halloc)
    as (_ & _ & _ & _ & _ & Hlisteners & _).
  unfold listener_count. rewrite Hlisteners, lookup_insert_eq. simpl.
  rewrite length_app. simpl. lia.
Qed.

(** C4, where the code departs from it.  A [waitForNavigation] on which
    the timer fires is left by the rejection "Navigation timeout after
    ...ms" with its timer cleared and its handler still subscribed:
    after [n] such waits the event has [n] listeners more than before,
    not as many as before. *)
Theorem C4_timed_out_waits_keep_their_listeners (options : NavigateOptions)
    (n : nat) (w : World) :
  listeners_allocated w →
  (let started := waitForNavigation options w in
   let fired := fire_timer (race_timer started.1) started.2 in
   after_race started.1 fired
   = Throws (Error (navigation_timeout (nav_timeout options)))
       (timed_out_wait options w))
  ∧ listener_count (eventName options)
      (Nat.iter n (timed_out_wait options) w)
    = (n + listener_count (eventName options) w)%nat.
Proof.
  intros Halloc. split.
  - destruct (waitForNavigation_timeout options w Halloc)
      as (_ & _ & _ & Hrace & Hwait & _).
    simpl. by rewrite Hwait.
  - assert (listeners_allocated (Nat.iter n (timed_out_wait options) w)
            ∧ listener_count (eventName options)
                (Nat.iter n (timed_out_wait options) w)
              = (n + listener_count (eventName options) w)%nat) as [_ Hn];
      [|done].
    induction n as [|n [IHalloc IHcount]]; simpl; [done |]. split.
    + by apply timed_out_wait_allocated.
    + rewrite timed_out_wait_count by done. by rewrite IHcount.
Qed.

Lemma open_world_listeners : listeners_allocated open_world.
Proof. intros event listeners f Hevent. by vm_compute in Hevent. Qed.

Lemma C4_timed_out_waits_keep_their_listeners_witness :
  let options := {| nav_timeout := 100; nav_waitUntil := load |} in
  listener_count "Page.loadEventFired" open_world = 0%nat
  ∧ listener_count "Page.loadEventFired"
      (Nat.iter 3 (timed_out_wait options) open_world) = 3%nat.
Proof.
  split; [reflexivity |].
  destruct (C4_timed_out_waits_keep_their_listeners
              {| nav_timeout := 100; nav_waitUntil := load |} 3
              open_world open_world_listeners) as [_ Hcount].
  exact Hcount.
Defined.

(** The three ways out of a navigation wait, on a session just opened.
    When the load event comes, the handler unsubscribes itself; when the
    timer fires, or when the command of [goto] is answered with an error,
    the handler stays subscribed. *)
Example navigation_wait_paths :
  let options := {| nav_timeout := 100; nav_waitUntil := load |} in
  let count := listener_count "Page.loadEventFired" in
  (let '(r, w) := waitForNavigation options open_world in
   let w := onmessage load_event w in
   ∃ w', after_race r w = Returns () w' ∧ count w' = 0%nat)
  ∧ (let '(r, w) := waitForNavigation options open_world in
     let w := fire_timer (race_timer r) w in
     ∃ w', after_race r w
           = Throws (Error "Navigation timeout after 100ms") w'
           ∧ count w' = 1%nat)
  ∧ (let '(g, w) := goto "https://example.com" options open_world in
     let w := onmessage (reply_error "1") w in
     ∃ w', after_command g w
           = Throws (ErrorOf (Some (JStr "No node"))) w'
           ∧ count w' = 1%nat).
Proof. vm_compute. repeat split; by eexists. Qed.

(** ** The network waits *)

Local Arguments get : simpl never.

Lemma traffic_event_nonempty kind :
  String.eqb (traffic_event kind) EmptyString = false.
Proof. by destruct kind. Qed.

Lemma handleMessage_traffic kind data r w :
  traffic_of kind data = Some r →
  handleMessage data w
  = for_of (listeners_of kind w) (traffic_event kind) (frame_params data) w
  ∧ object_of (frame_params data) ≫= (λ ps, object_of (get (member kind) ps))
    = Some r.
Proof.
  unfold traffic_of, handleMessage, frame_params, listeners_of.
  destruct (JSON.parse data) as [msg|]; simpl; [|done].
  destruct msg as [| | | | |members]; try done.
  unfold dispatch.
  destruct (get "id" (JObj members)); [done |].
  destruct (get "method" (JObj members)) as [[| | |name| |]|]; try done.
  destruct (String.eqb name (traffic_event kind)) eqn:Hname; [|done].
  apply String.eqb_eq in Hname. subst name.
  rewrite traffic_event_nonempty. intros Hr. split; [|done].
  by destruct (eventListeners w !! traffic_event kind).
Qed.

Lemma matches_string m r u :
  get "url" r = Some (JStr u) →
  matches m (get "url" r) = Some (matching m r).
Proof. intros Hu. unfold matching. rewrite Hu. by destruct m. Qed.

Lemma for_of_app xs ys event params w :
  for_of (xs ++ ys) event params w
  = match for_of xs event params w with
    | (w', None) => for_of ys event params w'
    | thrown => thrown
    end.
Proof.
  revert w. induction xs as [|x xs IH]; intros w; simpl.
  - done.
  - case_decide; [|apply IH].
    destruct (invoke x params w) as [w' [e|]]; [done | apply IH].
Qed.

Lemma set_delete_other (f h : nat) (others : list nat) :
  f ≠ h → set_delete f (others ++ [h]) = set_delete f others ++ [h].
Proof.
  intros Hf. unfold set_delete. rewrite filter_app. f_equal.
  rewrite filter_cons_True by done. done.
Qed.

Lemma set_delete_last (h : nat) (others : list nat) :
  h ∉ others → set_delete h (others ++ [h]) = others.
Proof.
  intros Hh. unfold set_delete. rewrite filter_app.
  rewrite filter_cons_False by (intros ?; done).
  rewrite filter_nil, app_nil_r.
  induction others as [|x others IH]; [done |].
  apply not_elem_of_cons in Hh as [Hx Hh].
  rewrite filter_cons_True by done. f_equal. by apply IH.
Qed.

Lemma set_delete_subset (f x : nat) (s : list nat) :
  x ∈ set_delete f s → x ∈ s.
Proof. unfold set_delete. by intros [_ ?]%list_elem_of_filter. Qed.

Section TrafficWait.
Variables (kind : traffic) (m : matcher) (h : nat) (t : Z) (p : nat)
  (delay : Z).

Local Abbreviation state := (wait_state kind m h t p delay).

(** A handler that finds its match. *)
Lemma handler_matched f t' p' v w listeners :
  eventListeners w !! traffic_event kind = Some listeners →
  let w' := resolve p' v (off (traffic_event kind) f (clearTimeout t' w)) in
  eventListeners w' !! traffic_event kind = Some (set_delete f listeners)
  ∧ functions w' = functions w
  ∧ promises w' = settled p' (Fulfilled v) (promises w)
  ∧ timers w' = delete t' (timers w).
Proof.
  intros Hlisteners. simpl. unfold resolve. rewrite settle_eq. simpl.
  unfold off. simpl. rewrite Hlisteners. simpl.
  by rewrite lookup_insert_eq.
Qed.

Lemma invoke_handler f m' t' p' params r u w :
  functions w !! f = Some (TrafficHandler kind m' t' p') →
  object_of params ≫= (λ ps, object_of (get (member kind) ps)) = Some r →
  get "url" r = Some (JStr u) →
  invoke f params w
  = if matching m' r
    then (resolve p' (resolution kind r)
            (off (traffic_event kind) f (clearTimeout t' w)), None)
    else (w, None).
Proof.
  intros Hf Hr Hu. unfold invoke. rewrite Hf, Hr.
  rewrite (matches_string m' r u Hu). by destruct (matching m' r).
Qed.

(** A bystander leaves the wait as it is. *)
Lemma bystander_step f params r u ph w :
  object_of params ≫= (λ ps, object_of (get (member kind) ps)) = Some r →
  get "url" r = Some (JStr u) →
  state ph w →
  f ≠ h →
  f ∈ default [] (eventListeners w !! traffic_event kind) →
  state ph (invoke f params w).1 ∧ (invoke f params w).2 = None.
Proof.
  intros Hr Hu (others & Hh & Hothers & Hph) Hf Hin.
  assert (eventListeners w !! traffic_event kind
          = Some (match ph with Waiting => others ++ [h] | _ => others end))
    as Hlisteners by (destruct ph; by destruct Hph as [-> _]).
  rewrite Hlisteners in Hin. simpl in Hin.
  assert (f ∈ others) as Hf'.
  { destruct ph; [|done].
    apply elem_of_app in Hin as [?|?%list_elem_of_singleton]; done. }
  rewrite Forall_forall in Hothers.
  destruct (Hothers f Hf') as (m' & t' & p' & Hclosure & Ht' & Hp').
  rewrite (invoke_handler f m' t' p' params r u w Hclosure Hr Hu).
  destruct (matching m' r);
    [|split; [by exists others; rewrite Forall_forall | done]].
  simpl. split; [|done].
  destruct (handler_matched f t' p' (resolution kind r) w _ Hlisteners)
    as (Hl & Hfs & Hps & Hts).
  exists (set_delete f others). split; [|split].
  - intros Hin'%set_delete_subset. done.
  - apply Forall_forall. intros x Hx%set_delete_subset.
    destruct (Hothers x Hx) as (mx & tx & px & Hcx & ?).
    exists mx, tx, px. by rewrite Hfs.
  - destruct ph as [|v].
    + destruct Hph as (_ & Hhandler & Hpending & Htimer).
      rewrite Hl, Hfs, Hps, Hts. repeat split.
      * by rewrite set_delete_other.
      * done.
      * by rewrite settled_other.
      * by rewrite lookup_delete_ne.
    + destruct Hph as (_ & Hfulfilled & Htimer).
      rewrite Hl, Hps, Hts. repeat split.
      * by rewrite settled_other.
      * by rewrite lookup_delete_ne.
Qed.

Lemma for_of_bystanders snapshot params r u ph w :
  object_of params ≫= (λ ps, object_of (get (member kind) ps)) = Some r →
  get "url" r = Some (JStr u) →
  h ∉ snapshot →
  state ph w →
  state ph (for_of snapshot (traffic_event kind) params w).1
  ∧ (for_of snapshot (traffic_event kind) params w).2 = None.
Proof.
  intros Hr Hu. revert w.
  induction snapshot as [|f rest IH]; intros w Hh Hstate; simpl; [done |].
  apply not_elem_of_cons in Hh as [Hf Hrest].
  case_decide as Hin; [|by apply IH].
  destruct (bystander_step f params r u ph w Hr Hu Hstate) as [Hstate' Hnone];
    [done | done |].
  destruct (invoke f params w) as [w' [e|]]; simpl in *; [done |].
  by apply IH.
Qed.

(** The handler of the wait itself. *)
Lemma own_step params r u w :
  object_of params ≫= (λ ps, object_of (get (member kind) ps)) = Some r →
  get "url" r = Some (JStr u) →
  state Waiting w →
  state (after_event kind m Waiting r) (invoke h params w).1
  ∧ (invoke h params w).2 = None.
Proof.
  intros Hr Hu (others & Hh & Hothers & Hl & Hclosure & Hpending & Htimer).
  rewrite (invoke_handler h m t p params r u w Hclosure Hr Hu). simpl.
  destruct (matching m r); simpl;
    [|split; [by exists others | done]].
  split; [|done].
  destruct (handler_matched h t p (resolution kind r) w _ Hl)
    as (Hl' & Hfs & Hps & Hts).
  exists others. split; [done |]. split.
  - eapply Forall_impl; [exact Hothers |].
    intros f (m' & t' & p' & ?). exists m', t', p'. by rewrite Hfs.
  - rewrite Hl', Hps, Hts. repeat split.
    + by rewrite set_delete_last.
    + by apply settled_pending.
    + by apply lookup_delete_eq.
Qed.

(** One traffic event. *)
Lemma traffic_step data r u ph w :
  traffic_of kind data = Some r →
  get "url" r = Some (JStr u) →
  state ph w →
  state (after_event kind m ph r) (onmessage data w).
Proof.
  intros Hdata Hu Hstate. unfold onmessage.
  destruct (handleMessage_traffic kind data r w Hdata) as [-> Hr].
  unfold listeners_of.
  destruct Hstate as (others & Hh & Hothers & Hph). destruct ph as [|v].
  - destruct Hph as (Hl & Hrest). rewrite Hl. simpl.
    rewrite for_of_app.
    assert (state Waiting w) as Hstate by (by exists others).
    destruct (for_of_bystanders others (frame_params data) r u Waiting w
                Hr Hu Hh Hstate) as [Hstate1 Hnone].
    destruct (for_of others (traffic_event kind) (frame_params data) w)
      as [w1 [e|]]; simpl in *; [done |].
    destruct Hstate1 as (others1 & Hh1 & Hothers1 & Hl1 & Hrest1).
    rewrite Hl1. simpl.
    rewrite decide_True by (apply elem_of_app; right; by left).
    assert (state Waiting w1) as Hstate1 by (by exists others1).
    destruct (own_step (frame_params data) r u w1 Hr Hu Hstate1)
      as [Hstate2 Hnone2].
    by destruct (invoke h (frame_params data) w1) as [w2 [e|]].
  - destruct Hph as (Hl & Hrest). rewrite Hl. simpl.
    assert (state (Delivered v) w) as Hstate by (by exists others).
    by destruct (for_of_bystanders others (frame_params data) r u
                   (Delivered v) w Hr Hu Hh Hstate) as [Hstate1 _].
Qed.

(** The events of [frames] one after the other. *)
Lemma traffic_steps frames ph w :
  Forall (λ data, ∃ r u, traffic_of kind data = Some r
                         ∧ get "url" r = Some (JStr u)) frames →
  state ph w →
  state (foldl (after_frame kind m) ph frames) (receive_all frames w).
Proof.
  revert ph w. induction frames as [|data frames IH]; intros ph w Hframes Hw;
    simpl; [done |].
  apply Forall_cons in Hframes as [(r & u & Hr & Hu) Hframes].
  apply IH; [done |]. unfold after_frame. rewrite Hr. by eapply traffic_step.
Qed.

Lemma after_frames_delivered frames v :
  foldl (after_frame kind m) (Delivered v) frames = Delivered v.
Proof.
  induction frames as [|data frames IH]; simpl; [done |].
  unfold after_frame at 2. by destruct (traffic_of kind data).
Qed.

Lemma after_frames_waiting frames :
  foldl (after_frame kind m) Waiting frames
  = match first_match kind m frames with
    | Some r => Delivered (resolution kind r)
    | None => Waiting
    end.
Proof.
  induction frames as [|data frames IH]; simpl; [done |].
  unfold after_frame at 2. destruct (traffic_of kind data) as [r|]; simpl.
  - destruct (matching m r); [apply after_frames_delivered | apply IH].
  - apply IH.
Qed.

(** The timer of the wait firing while it waits. *)
Lemma timeout_step w :
  state Waiting w →
  promises (fire_timer t w) !! p = Some (Rejected (traffic_timeout kind))
  ∧ h ∉ listeners_of kind (fire_timer t w).
Proof.
  intros (others & Hh & _ & Hl & _ & Hpending & Htimer).
  unfold fire_timer, listeners_of. rewrite Htimer. simpl.
  unfold reject. rewrite settle_eq. simpl. split.
  - unfold off. simpl. rewrite Hl. simpl. by apply settled_pending.
  - unfold off. simpl. rewrite Hl. simpl. rewrite lookup_insert_eq. simpl.
    by rewrite set_delete_last.
Qed.

End TrafficWait.

(** [waitForResponse] and [waitForRequest] leave their wait subscribed,
    with its timer set and its promise pending. *)
Lemma waitForTraffic_waiting kind m timeout w :
  traffic_listeners kind w →
  let armed := waitForTraffic kind m timeout w in
  armed.1 = {| wait_promise := length (promises w);
               wait_handler := length (functions w);
               wait_timer := next_timer w |}
  ∧ wait_state kind m (length (functions w)) (next_timer w)
      (length (promises w)) timeout Waiting armed.2.
Proof.
  intros Hlisteners. unfold waitForTraffic, new_promise, setTimeout,
    new_function. simpl. split; [done |].
  assert (length (functions w) ∉ listeners_of kind w) as Hfresh.
  { intros Hin. destruct (Hlisteners _ Hin) as (m' & t' & p' & Hf & _).
    apply lookup_lt_Some in Hf. lia. }
  exists (listeners_of kind w). split; [done |]. split.
  - apply Forall_forall. intros f Hin.
    destruct (Hlisteners _ Hin) as (m' & t' & p' & Hf & Ht' & Hp').
    exists m', t', p'. unfold on. simpl. split; [|split; lia].
    rewrite lookup_app_l; [done |]. by eapply lookup_lt_Some.
  - unfold on. simpl. fold (listeners_of kind w).
    rewrite set_add_fresh by done. repeat split.
    + by rewrite lookup_insert_eq.
    + by rewrite snoc_lookup.
    + by rewrite snoc_lookup.
    + by rewrite lookup_insert_eq.
Qed.

(** C7, as the code has it.  A wait armed by [waitForResponse] or
    [waitForRequest] is subscribed to its traffic event.  Once the
    events of [frames] have come in, it stands as follows.  If one of
    them passes the test, the promise is resolved from the first that
    does, with its url, status and headers for a response, with its url
    and method (and no headers) for a request; the handler is
    unsubscribed and the timer cleared; the events before it and after
    it have changed nothing.  If none passes, the promise is pending
    and the handler subscribed, and when the timer fires the promise is
    rejected with the timeout error and the handler unsubscribed. *)
Theorem C7_first_matching_event_resolves (kind : traffic) (m : matcher)
    (timeout : Z) (frames : list string) (w : World) :
  traffic_listeners kind w →
  Forall (λ data, ∃ r u, traffic_of kind data = Some r
                         ∧ get "url" r = Some (JStr u)) frames →
  let armed := waitForTraffic kind m timeout w in
  let received := receive_all frames armed.2 in
  wait_handler armed.1 ∈ listeners_of kind armed.2
  ∧ match first_match kind m frames with
    | Some r =>
        promises received !! wait_promise armed.1
        = Some (Fulfilled
                  match kind with
                  | Response =>
                      VResponse (get "url" r) (get "status" r)
                        (get "headers" r)
                  | Request => VRequest (get "url" r) (get "method" r)
                  end)
        ∧ (wait_handler armed.1 ∉ listeners_of kind received)
        ∧ timers received !! wait_timer armed.1 = None
    | None =>
        promises received !! wait_promise armed.1 = Some Pending
        ∧ wait_handler armed.1 ∈ listeners_of kind received
        ∧ promises (fire_timer (wait_timer armed.1) received)
          !! wait_promise armed.1
          = Some (Rejected (traffic_timeout kind))
        ∧ (wait_handler armed.1
           ∉ listeners_of kind (fire_timer (wait_timer armed.1) received))
    end.
Proof.
  intros Hlisteners Hframes armed received. subst received.
  destruct (waitForTraffic_waiting kind m timeout w Hlisteners)
    as [Harmed Hwaiting].
  fold armed in Harmed, Hwaiting. clearbody armed.
  destruct armed as [wt w1]. simpl in *. subst wt. simpl.
  pose proof (traffic_steps kind m _ _ _ timeout frames Waiting w1
                Hframes Hwaiting) as Hreceived.
  rewrite after_frames_waiting in Hreceived.
  split.
  - destruct Hwaiting as (others & _ & _ & Hl & _).
    unfold listeners_of. rewrite Hl. simpl.
    apply elem_of_app. right. by left.
  - destruct (first_match kind m frames) as [r|].
    + destruct Hreceived as (others & Hh & _ & Hl & Hp & Ht).
      unfold listeners_of. rewrite Hl, Hp, Ht. simpl.
      repeat split; try done; by destruct kind.
    + pose proof (timeout_step kind m _ _ _ timeout _ Hreceived)
        as [Hrejected Hunsubscribed].
      destruct Hreceived as (others & Hh & _ & Hl & _ & Hp & Ht).
      unfold listeners_of in *. rewrite Hl, Hp. simpl.
      repeat split; try done.
      apply elem_of_app. right. by left.
Qed.

Lemma open_world_traffic kind : traffic_listeners kind open_world.
Proof.
  intros f Hf.
  assert (listeners_of kind open_world = []) as Hnone
    by (destruct kind; by vm_compute).
  rewrite Hnone in Hf. by apply elem_of_nil in Hf.
Qed.

Lemma burst_events :
  Forall (λ data, ∃ r u, traffic_of Response data = Some r
                         ∧ get "url" r = Some (JStr u)) burst.
Proof. repeat constructor; vm_compute; eauto. Qed.

Lemma C7_first_matching_event_resolves_witness :
  let armed := waitForResponse (MString "/api/data") 30000 open_world in
  let received := receive_all burst armed.2 in
  promises received !! wait_promise armed.1
  = Some (Fulfilled (VResponse (Some (JStr "https://example.com/api/data"))
                       (Some (JNum 201 0)) (Some (JObj []))))
  ∧ wait_handler armed.1 ∉ listeners_of Response received.
Proof.
  destruct (C7_first_matching_event_resolves Response
              (MString "/api/data") 30000 burst open_world
              (open_world_traffic Response) burst_events)
    as [_ Hreceived].
  vm_compute first_match in Hreceived.
  destruct Hreceived as (Hpromise & Hhandler & _).
  split; [exact Hpromise | exact Hhandler].
Defined.

(** A request that passes the test of [waitForRequest] carries headers;
    what the wait resolves with has none. *)
Lemma C7_counterexample :
  let frame := request_event "https://example.com/api/data" in
  let armed := waitForRequest (MString "/api/data") 30000 open_world in
  let received := onmessage frame armed.2 in
  let resolved :=
    VRequest (Some (JStr "https://example.com/api/data"))
      (Some (JStr "GET")) in
  (traffic_of Request frame ≫= get "headers")
  = Some (JObj [("Accept", JStr "text/html")])
  ∧ promises received !! wait_promise armed.1 = Some (Fulfilled resolved)
  ∧ headers_of resolved = None
  ∧ headers_of resolved ≠ (traffic_of Request frame ≫= get "headers").
Proof. by vm_compute. Qed.

(** * Further properties *)

(** ** CDPSession: subscriptions *)

Lemma subscribers_on event callback w :
  subscribers event (on event callback w)
  = set_add callback (subscribers event w).
Proof. unfold subscribers, on. simpl. by rewrite lookup_insert_eq. Qed.

Lemma subscribers_on_other event event' callback w :
  event ≠ event' →
  subscribers event' (on event callback w) = subscribers event' w.
Proof.
  intros Hne. unfold subscribers, on. simpl. by rewrite lookup_insert_ne.
Qed.

Lemma subscribers_off event callback w :
  subscribers event (off event callback w)
  = set_delete callback (subscribers event w).
Proof.
  unfold subscribers, off.
  destruct (eventListeners w !! event) as [listeners|] eqn:Hevent; simpl.
  - by rewrite lookup_insert_eq.
  - by rewrite Hevent.
Qed.

Lemma subscribers_off_other event event' callback w :
  event ≠ event' →
  subscribers event' (off event callback w) = subscribers event' w.
Proof.
  intros Hne. unfold subscribers, off.
  destruct (eventListeners w !! event); simpl; [|done].
  by rewrite lookup_insert_ne.
Qed.

Lemma set_add_idemp (f : nat) (s : list nat) :
  set_add f (set_add f s) = set_add f s.
Proof.
  unfold set_add. destruct (decide (f ∈ s)) as [Hin|Hout].
  - by rewrite decide_True.
  - rewrite decide_True; [done |]. apply elem_of_app. right.
    by apply list_elem_of_singleton.
Qed.

Lemma set_delete_fresh (f : nat) (s : list nat) :
  f ∉ s → set_delete f s = s.
Proof.
  intros Hout. unfold set_delete.
  induction s as [|x s IH]; [done |].
  apply not_elem_of_cons in Hout as [Hne Hout].
  rewrite filter_cons_True by done. by rewrite IH.
Qed.

Lemma set_delete_add (f : nat) (s : list nat) :
  set_delete f (set_add f s) = set_delete f s.
Proof.
  unfold set_add. destruct (decide (f ∈ s)); [done |].
  unfold set_delete. rewrite filter_app. simpl.
  rewrite filter_cons_False by (by intros Hne). simpl.
  by rewrite app_nil_r.
Qed.

(** X1.  The listeners of an event are a Set.  A callback subscribed a
    second time is subscribed once: the second [on] changes nothing,
    and [on] of a callback that is subscribed leaves the listeners as
    they are.  A new callback comes after the ones subscribed before it,
    and the subscriptions to other events stay as they are. *)
Theorem on_subscribes_once (event : string) (callback : nat) (w : World) :
  on event callback (on event callback w) = on event callback w
  ∧ (callback ∈ subscribers event w →
     subscribers event (on event callback w) = subscribers event w)
  ∧ (callback ∉ subscribers event w →
     subscribers event (on event callback w)
     = subscribers event w ++ [callback])
  ∧ ∀ event', event ≠ event' →
      subscribers event' (on event callback w) = subscribers event' w.
Proof.
  split; [|split; [|split]].
  - unfold on. simpl. rewrite lookup_insert_eq. simpl.
    rewrite set_add_idemp. by rewrite insert_insert_eq.
  - intros Hin. rewrite subscribers_on. unfold set_add.
    by rewrite decide_True.
  - intros Hfresh. rewrite subscribers_on. by apply set_add_fresh.
  - intros event' Hne. by apply subscribers_on_other.
Qed.

Lemma on_subscribes_once_witness :
  subscribers "Page.loadEventFired"
    (on "Page.loadEventFired" 7 (on "Page.loadEventFired" 7 open_world))
  = [7%nat].
Proof.
  destruct (on_subscribes_once "Page.loadEventFired" 7 open_world)
    as (-> & _ & Hfresh & _).
  apply Hfresh. vm_compute. by intros Hin%elem_of_nil.
Defined.

(** X2.  [off] takes the callback out of the Set of the event and leaves
    the other listeners in their order; where the event has no Set, or
    the callback is not in it, the listeners stay as they are.  So [off]
    after [on] of a callback that was not subscribed gives back the
    listeners there were.  The subscriptions to other events stay as
    they are. *)
Theorem off_undoes_on (event : string) (callback : nat) (w : World) :
  (eventListeners w !! event = None → off event callback w = w)
  ∧ (callback ∉ subscribers event w →
     subscribers event (off event callback w) = subscribers event w
     ∧ subscribers event (off event callback (on event callback w))
       = subscribers event w)
  ∧ (callback ∉ subscribers event (off event callback w))
  ∧ (∀ other, other ≠ callback →
       ((other ∈ subscribers event (off event callback w))
        ↔ (other ∈ subscribers event w)))
  ∧ ∀ event', event ≠ event' →
      subscribers event' (off event callback w) = subscribers event' w.
Proof.
  split; [|split; [|split; [|split]]].
  - intros Hnone. unfold off. by rewrite Hnone.
  - intros Hfresh. rewrite !subscribers_off, subscribers_on.
    rewrite set_delete_add. by rewrite set_delete_fresh.
  - rewrite subscribers_off. unfold set_delete.
    intros [Hne _]%list_elem_of_filter. by apply Hne.
  - intros other Hne. rewrite subscribers_off. unfold set_delete.
    rewrite list_elem_of_filter. split; [by intros [_ Hin] | by split].
  - intros event' Hne. by apply subscribers_off_other.
Qed.

Lemma off_undoes_on_witness :
  subscribers "Page.loadEventFired"
    (off "Page.loadEventFired" 7 (on "Page.loadEventFired" 7 open_world))
  = subscribers "Page.loadEventFired" open_world.
Proof.
  destruct (off_undoes_on "Page.loadEventFired" 7 open_world)
    as (_ & Hback & _).
  apply Hback. vm_compute. by intros Hin%elem_of_nil.
Defined.

(** ** CDPSession: the order and the ids of the requests *)

Lemma send_sent method params w :
  ready w = Opened →
  terminated w = false →
  sent (send method params w).2
  = sent w ++ [{| out_id := id_ w + 1; out_method := method;
                  out_params := params |}].
Proof.
  intros Hready Hterminated. rewrite send_opened by done.
  unfold ws_send. simpl. by rewrite Hterminated.
Qed.

Lemma send_all_sent calls w :
  ready w = Opened →
  terminated w = false →
  sent (send_all calls w).2 = sent w ++ numbered (id_ w) calls
  ∧ id_ (send_all calls w).2 = id_ w + Z.of_nat (length calls).
Proof.
  revert w. induction calls as [|[method params] calls IH];
    intros w Hready Hterminated.
  - simpl. rewrite app_nil_r. split; [done | lia].
  - simpl.
    pose proof (send_sent method params w Hready Hterminated) as Hsent.
    destruct (send_fields method params w Hready)
      as (_ & Hid & _ & _ & Hready1 & Hterminated1 & _).
    destruct (send method params w) as [p w1]. simpl in *.
    rewrite Hterminated in Hterminated1.
    destruct (IH w1 Hready1 Hterminated1) as [IHsent IHid].
    destruct (send_all calls w1) as [ps w2]. simpl in *.
    rewrite IHsent, IHid, Hsent, Hid, <- app_assoc. split; [done | lia].
Qed.

Lemma flush_sent queue w :
  terminated w = false →
  sent (flush queue w)
  = sent w ++ numbered (id_ w) ((λ call, (call.1.2, call.2)) <$> queue)
  ∧ id_ (flush queue w) = id_ w + Z.of_nat (length queue)
  ∧ terminated (flush queue w) = false.
Proof.
  revert w. induction queue as [|[[p method] params] queue IH];
    intros w Hterminated.
  - simpl. rewrite app_nil_r. repeat split; [lia | done].
  - unfold flush in *. simpl.
    assert (terminated (send_body p method params w) = false
            ∧ id_ (send_body p method params w) = id_ w + 1
            ∧ sent (send_body p method params w)
              = sent w ++ [{| out_id := id_ w + 1; out_method := method;
                              out_params := params |}])
      as (Hterminated1 & Hid & Hsent).
    { unfold send_body, ws_send. simpl. by rewrite Hterminated. }
    destruct (IH _ Hterminated1) as (-> & -> & ->).
    rewrite Hsent, Hid, <- app_assoc. repeat split. lia.
Qed.

(** Calls made while the socket is connecting: each waits with a promise
    of its own, and nothing else changes. *)
Lemma send_all_waits calls w :
  ready w = Connecting →
  let made := send_all calls w in
  made.1 = seq (length (promises w)) (length calls)
  ∧ made.2
    = set_awaiting_ready
        (awaiting_ready w ++ queued (length (promises w)) calls)
        (set_promises (promises w ++ replicate (length calls) Pending) w).
Proof.
  revert w. induction calls as [|[method params] calls IH]; intros w Hready.
  - simpl. rewrite !app_nil_r. by destruct w.
  - simpl. unfold send at 1 2, new_promise. simpl. rewrite Hready. simpl.
    match goal with |- context [send_all calls ?w1] =>
      destruct (IH w1 Hready) as [IHps IHw];
      destruct (send_all calls w1) as [ps w2] end.
    simpl in *. rewrite IHps, IHw, length_app. simpl.
    rewrite Nat.add_1_r, <- !app_assoc. done.
Qed.

Lemma queued_calls p calls :
  (λ call : nat * string * list (string * option json),
     (call.1.2, call.2)) <$> queued p calls = calls.
Proof.
  revert p. induction calls as [|[method params] calls IH]; intros p;
    [done |].
  simpl. by rewrite IH.
Qed.

Lemma queued_length p calls : length (queued p calls) = length calls.
Proof.
  revert p. induction calls as [|[method params] calls IH]; intros p;
    [done |].
  simpl. by rewrite IH.
Qed.

(** X3.  Requests are numbered in the order of the calls.  On an open
    socket each [send] writes its frame at once, with the id after the
    last one used.  While the socket is connecting nothing is written;
    when it opens, the calls that waited are written in the order in
    which they were made, with consecutive ids. *)
Theorem requests_numbered_in_call_order
    (calls : list (string * list (string * option json))) (w : World) :
  terminated w = false →
  (ready w = Opened →
   sent (send_all calls w).2 = sent w ++ numbered (id_ w) calls
   ∧ id_ (send_all calls w).2 = id_ w + Z.of_nat (length calls))
  ∧ (ready w = Connecting →
     sent (send_all calls w).2 = sent w
     ∧ id_ (send_all calls w).2 = id_ w
     ∧ sent (onopen (send_all calls w).2)
       = sent w ++ numbered (id_ w) (waiting_calls w ++ calls)
     ∧ id_ (onopen (send_all calls w).2)
       = id_ w + Z.of_nat (length (waiting_calls w ++ calls))).
Proof.
  intros Hterminated. split; intros Hready.
  - by apply send_all_sent.
  - destruct (send_all_waits calls w Hready) as [_ Hmade].
    rewrite Hmade. simpl. split; [done |]. split; [done |].
    rewrite onopen_connecting by done. simpl.
    match goal with |- context [flush ?queue ?w0] =>
      destruct (flush_sent queue w0 Hterminated) as (-> & -> & _) end.
    simpl. unfold waiting_calls. rewrite fmap_app, !length_app, !length_fmap.
    by rewrite queued_calls, queued_length.
Qed.

Lemma requests_numbered_in_call_order_witness :
  sent (onopen (send_all [("Page.enable", []); ("Runtime.enable", []);
                          ("DOM.enable", []); ("Network.enable", [])]
                  new_world).2)
  = [ {| out_id := 1; out_method := "Page.enable"; out_params := [] |};
      {| out_id := 2; out_method := "Runtime.enable"; out_params := [] |};
      {| out_id := 3; out_method := "DOM.enable"; out_params := [] |};
      {| out_id := 4; out_method := "Network.enable"; out_params := [] |} ].
Proof.
  destruct (requests_numbered_in_call_order
              [("Page.enable", []); ("Runtime.enable", []);
               ("DOM.enable", []); ("Network.enable", [])]
              new_world eq_refl) as [_ Hconnecting].
  destruct (Hconnecting eq_refl) as (_ & _ & Hsent & _).
  exact Hsent.
Defined.

(** ** CDPSession: a socket that fails to open *)

Lemma reject_queue_fields err queue w :
  let w' := foldl (λ acc '(p, _, _), reject p err acc) w
              (queue : list (nat * string * list (string * option json))) in
  sent w' = sent w ∧ callbacks w' = callbacks w ∧ id_ w' = id_ w
  ∧ ready w' = ready w ∧ awaiting_ready w' = awaiting_ready w
  ∧ length (promises w') = length (promises w).
Proof.
  revert w. induction queue as [|[[p method] params] queue IH]; intros w;
    [done |].
  simpl. destruct (IH (reject p err w)) as (-> & -> & -> & -> & -> & ->).
  unfold reject. rewrite settle_eq. simpl. unfold settled.
  repeat split. destruct (promises w !! p) as [[]|]; try done.
  by rewrite length_insert.
Qed.

Lemma reject_queue_rejected err queue w (p : nat) :
  promises w !! p = Some (Rejected err) →
  promises (foldl (λ acc '(q, _, _), reject q err acc) w
              (queue : list (nat * string * list (string * option json))))
    !! p = Some (Rejected err).
Proof.
  revert w. induction queue as [|[[q method] params] queue IH]; intros w Hp;
    [done |].
  simpl. apply IH. unfold reject. rewrite settle_eq. simpl.
  rewrite settled_lookup. case_decide; [subst q; by rewrite Hp | done].
Qed.

Lemma reject_queue_pending err queue w (p : nat) :
  promises w !! p = Some Pending →
  p ∈ queue.*1.*1 →
  promises (foldl (λ acc '(q, _, _), reject q err acc) w
              (queue : list (nat * string * list (string * option json))))
    !! p = Some (Rejected err).
Proof.
  revert w. induction queue as [|[[q method] params] queue IH];
    intros w Hp Hin.
  - by apply elem_of_nil in Hin.
  - simpl in *. destruct (decide (q = p)) as [->|Hne].
    + apply reject_queue_rejected. unfold reject. rewrite settle_eq. simpl.
      by rewrite settled_lookup, decide_True, Hp.
    + apply IH.
      * unfold reject. rewrite settle_eq. simpl.
        by rewrite settled_other.
      * apply elem_of_cons in Hin as [Heq|Hin]; [by subst q | done].
Qed.

Lemma queued_promises p calls :
  (queued p calls).*1.*1 = seq p (length calls).
Proof.
  revert p. induction calls as [|[method params] calls IH]; intros p;
    [done |].
  simpl. by rewrite IH.
Qed.

(** X4.  When the socket fails to open, every call that waited for it
    is rejected with the error of the socket, and so is every call made
    after; none of them is given a request id, registers a slot or is
    written to the socket. *)
Theorem onerror_rejects_waiting_calls
    (calls : list (string * list (string * option json))) (e : string)
    (w : World) :
  ready w = Connecting →
  let made := send_all calls w in
  let failed := onerror e made.2 in
  let err := Error ("WebSocket error: " +:+ e) in
  length made.1 = length calls
  ∧ Forall (λ p, promises made.2 !! p = Some Pending
                 ∧ promises failed !! p = Some (Rejected err)) made.1
  ∧ sent failed = sent w ∧ callbacks failed = callbacks w
  ∧ id_ failed = id_ w
  ∧ ∀ method params,
      let call := send method params failed in
      promises call.2 !! call.1 = Some (Rejected err)
      ∧ sent call.2 = sent w ∧ callbacks call.2 = callbacks w
      ∧ id_ call.2 = id_ w.
Proof.
  intros Hready made failed err.
  destruct (send_all_waits calls w Hready) as [Hps Hmade].
  fold made in Hps, Hmade.
  assert (ready made.2 = Connecting) as Hready' by (by rewrite Hmade).
  assert (failed
          = foldl (λ acc '(p, _, _), reject p err acc)
              (set_awaiting_ready [] (set_ready (Failed err) made.2))
              (awaiting_ready made.2)) as Hfailed.
  { subst failed. unfold onerror. by rewrite Hready'. }
  pose proof (reject_queue_fields err (awaiting_ready made.2)
                (set_awaiting_ready [] (set_ready (Failed err) made.2)))
    as Hfields.
  simpl in Hfields. rewrite <- Hfailed in Hfields.
  destruct Hfields as (Hsent & Hcallbacks & Hid & Hfail & _ & _).
  split; [by rewrite Hps, length_seq |].
  split; [|split; [|split; [|split]]].
  - apply Forall_forall. intros p Hp. rewrite Hps in Hp.
    apply elem_of_seq in Hp.
    assert (promises made.2 !! p = Some Pending) as Hpending.
    { rewrite Hmade. simpl. rewrite lookup_app_r by lia.
      apply lookup_replicate. split; [done | lia]. }
    split; [done |]. rewrite Hfailed.
    apply reject_queue_pending; [done |].
    rewrite Hmade. simpl. rewrite !fmap_app, queued_promises.
    apply elem_of_app. right. by apply elem_of_seq.
  - rewrite Hsent. by rewrite Hmade.
  - rewrite Hcallbacks. by rewrite Hmade.
  - rewrite Hid. by rewrite Hmade.
  - intros method params call. subst call.
    unfold send, new_promise. simpl. rewrite Hfail. simpl.
    unfold reject. rewrite settle_eq. simpl.
    rewrite settled_lookup, decide_True by done.
    rewrite lookup_app_r, Nat.sub_diag by done. simpl.
    rewrite Hsent, Hcallbacks, Hid. by rewrite Hmade.
Qed.

Lemma onerror_rejects_waiting_calls_witness :
  let made := send_all [("Page.enable", []); ("DOM.enable", [])] new_world in
  let failed := onerror "[object ErrorEvent]" made.2 in
  made.1 = [0; 1]%nat
  ∧ promises failed
    = [ Rejected (Error "WebSocket error: [object ErrorEvent]");
        Rejected (Error "WebSocket error: [object ErrorEvent]") ]
  ∧ sent failed = [].
Proof.
  destruct (onerror_rejects_waiting_calls
              [("Page.enable", []); ("DOM.enable", [])]
              "[object ErrorEvent]" new_world eq_refl)
    as (_ & _ & Hsent & _).
  split; [reflexivity |]. split; [reflexivity | exact Hsent].
Defined.

(** ** CDPSession: a closed session *)

Lemma closed_handleMessage data w :
  callbacks w = ∅ → eventListeners w = ∅ → (handleMessage data w).1 = w.
Proof.
  intros Hcallbacks Hlisteners. unfold handleMessage.
  destruct (JSON.parse data) as [msg|]; [|done].
  unfold dispatch. destruct msg; try done;
    (destruct (get "id" _) as [id|];
     [ unfold callbacks_get; destruct (as_integer id) as [k|]; simpl;
       [by rewrite Hcallbacks, lookup_empty | done]
     | destruct (get "method" _) as [[| | |method| |]|]; try done;
       destruct (String.eqb method EmptyString); [done |];
       by rewrite Hlisteners, lookup_empty ]).
Qed.

(** X5.  [close()] a second time changes nothing, and a frame that is
    still handed in after [close()] changes nothing either: there is no
    slot and no listener left for it. *)
Theorem close_is_final (w : World) :
  close (close w) = close w
  ∧ ∀ data, onmessage data (close w) = close w.
Proof.
  split.
  - rewrite (close_eq (close w)). rewrite close_eq. simpl.
    rewrite map_to_list_empty. simpl. done.
  - intros data. unfold onmessage. apply closed_handleMessage.
    + rewrite close_eq. by simpl.
    + rewrite close_eq. by simpl.
Qed.

(** ** Events and their listeners *)

Lemma handleMessage_event data name params w :
  event_frame data = Some (name, params) →
  handleMessage data w = for_of (subscribers name w) name params w.
Proof.
  unfold event_frame, handleMessage, subscribers.
  destruct (JSON.parse data) as [msg|]; simpl; [|done].
  destruct msg as [| | | | |members]; try done.
  unfold dispatch.
  destruct (get "id" (JObj members)); [done |].
  destruct (get "method" (JObj members)) as [[| | |method| |]|]; try done.
  destruct (String.eqb method EmptyString) eqn:Hmethod; [done |].
  intros [= -> <-].
  by destruct (eventListeners w !! name).
Qed.

Lemma invoke_LoadHandler f event p params w :
  functions w !! f = Some (LoadHandler event p) →
  invoke f params w
  = (set_promises (settled p (Fulfilled VUndefined) (promises w))
       (off event f w), None).
Proof.
  intros Hf. unfold invoke. rewrite Hf. unfold resolve.
  rewrite settle_eq. f_equal. f_equal. f_equal. unfold off.
  by destruct (eventListeners w !! event).
Qed.

Lemma off_untouched event f w :
  functions (off event f w) = functions w
  ∧ timers (off event f w) = timers w
  ∧ promises (off event f w) = promises w.
Proof. unfold off. by destruct (eventListeners w !! event). Qed.

(** The loop over the listeners of an event that are all handlers of
    navigation waits: each one that is still subscribed when it is
    reached unsubscribes itself and resolves its promise. *)
Lemma for_of_load_handlers snapshot event params w :
  (∀ f, f ∈ snapshot → f ∈ subscribers event w →
     ∃ p, functions w !! f = Some (LoadHandler event p)) →
  let r := for_of snapshot event params w in
  r.2 = None
  ∧ functions r.1 = functions w
  ∧ timers r.1 = timers w
  ∧ (∀ f, f ∈ subscribers event r.1
          ↔ f ∈ subscribers event w ∧ f ∉ snapshot)
  ∧ (∀ f q, f ∈ snapshot → f ∈ subscribers event w →
       functions w !! f = Some (LoadHandler event q) →
       promises w !! q = Some Pending →
       promises r.1 !! q = Some (Fulfilled VUndefined))
  ∧ (∀ q o, promises w !! q = Some o → o ≠ Pending →
       promises r.1 !! q = Some o)
  ∧ (∀ q, promises r.1 !! q = promises w !! q
          ∨ ∃ f, f ∈ snapshot ∧ f ∈ subscribers event w
                 ∧ functions w !! f = Some (LoadHandler event q)).
Proof.
  revert w. induction snapshot as [|x rest IH]; intros w Hhandlers.
  { simpl. split; [done |]. split; [done |]. split; [done |].
    split; [|split; [|split]].
    - intros f. split; [|by intros [Hsub _]].
      intros Hsub. split; [done |]. by intros Hin%elem_of_nil.
    - intros f q Hin. by apply elem_of_nil in Hin.
    - done.
    - by left. }
  simpl. fold (subscribers event w).
  destruct (decide (x ∈ subscribers event w)) as [Hx|Hx].
  - destruct (Hhandlers x) as [p Hp]; [by left | done |].
    rewrite (invoke_LoadHandler x event p params w Hp).
    set (w1 := set_promises (settled p (Fulfilled VUndefined) (promises w))
                 (off event x w)).
    destruct (off_untouched event x w) as (Hfunctions & Htimers & Hpromises).
    assert (subscribers event w1 = set_delete x (subscribers event w))
      as Hsubscribers by (unfold w1; apply subscribers_off).
    assert (∀ f, f ∈ subscribers event w1
                 ↔ f ∈ subscribers event w ∧ f ≠ x) as Hmember.
    { intros f. rewrite Hsubscribers. unfold set_delete.
      rewrite list_elem_of_filter. tauto. }
    assert (functions w1 = functions w) as Hfunctions1 by done.
    assert (promises w1 = settled p (Fulfilled VUndefined) (promises w))
      as Hpromises1 by done.
    destruct (IH w1) as (Hnone & Hf & Ht & Hs & Hresolved & Hkept & Hother).
    { intros f Hin Hsub. rewrite Hfunctions1. apply Hhandlers.
      - by right.
      - by apply Hmember in Hsub as [Hsub _]. }
    split; [done |]. split; [by rewrite Hf |]. split; [by rewrite Ht |].
    split; [|split; [|split]].
    + intros f. rewrite Hs, Hmember, not_elem_of_cons. tauto.
    + intros f q Hin Hsub Hq Hpending.
      destruct (decide (f = x)) as [->|Hne].
      * assert (q = p) as -> by congruence.
        apply Hkept; [|done]. rewrite Hpromises1.
        by rewrite settled_lookup, decide_True, Hpending.
      * apply elem_of_cons in Hin as [Heq|Hin]; [done |].
        destruct (decide (q = p)) as [->|Hqp].
        -- apply Hkept; [|done]. rewrite Hpromises1.
           by rewrite settled_lookup, decide_True, Hpending.
        -- apply (Hresolved f q);
             [done | by apply Hmember | by rewrite Hfunctions1 |].
           rewrite Hpromises1. by rewrite settled_other.
    + intros q o Hq Ho. apply Hkept; [|done]. rewrite Hpromises1.
      rewrite settled_lookup. case_decide; [|done]. subst q. rewrite Hq.
      by destruct o.
    + intros q. destruct (Hother q) as [Hsame|(f & Hin & Hsub & Hq)].
      * rewrite Hsame, Hpromises1, settled_lookup.
        case_decide; [|by left]. subst q.
        right. exists x. split; [by left | done].
      * right. exists f. split; [by right |].
        split; [by apply Hmember in Hsub as [Hsub _] |].
        by rewrite <- Hfunctions1.
  - destruct (IH w) as (Hnone & Hf & Ht & Hs & Hresolved & Hkept & Hother).
    { intros f Hin Hsub. apply Hhandlers; [by right | done]. }
    split; [done |]. split; [done |]. split; [done |].
    split; [|split; [|split]]; [| |done|].
    + intros f. rewrite Hs, not_elem_of_cons.
      split; [|tauto]. intros [Hsub Hout]. repeat split; try done.
      by intros ->.
    + intros f q Hin Hsub. apply elem_of_cons in Hin as [->|Hin]; [done |].
      by apply Hresolved.
    + intros q. destruct (Hother q) as [Hsame|(f & Hin & Hsub & Hq)];
        [by left |].
      right. exists f. split; [by right | done].
Qed.

Lemma event_reaches_load_handlers data event params w :
  event_frame data = Some (event, params) →
  navigation_listeners event w →
  let w' := onmessage data w in
  (handleMessage data w).2 = None
  ∧ subscribers event w' = []
  ∧ (∀ f p, f ∈ subscribers event w →
       functions w !! f = Some (LoadHandler event p) →
       promises w !! p = Some Pending →
       promises w' !! p = Some (Fulfilled VUndefined))
  ∧ (∀ q, promises w' !! q = promises w !! q
          ∨ ∃ f, f ∈ subscribers event w
                 ∧ functions w !! f = Some (LoadHandler event q))
  ∧ timers w' = timers w
  ∧ functions w' = functions w.
Proof.
  intros Hevent Hhandlers w'. subst w'. unfold onmessage.
  rewrite (handleMessage_event data event params w Hevent).
  destruct (for_of_load_handlers (subscribers event w) event params w)
    as (Hnone & Hf & Ht & Hs & Hresolved & _ & Hother).
  { intros f _ Hsub. destruct (Hhandlers f Hsub) as (p & Hp & _).
    by exists p. }
  split; [done |]. split; [|split; [|split; [|split]]]; try done.
  - apply elem_of_nil_inv. intros f Hin.
    apply Hs in Hin as [Hin Hout]. done.
  - intros f p Hsub. by apply Hresolved.
  - intros q. destruct (Hother q) as [Hsame|(f & _ & Hsub & Hq)];
      [by left |].
    right. by exists f.
Qed.

(** X6.  Where the listeners of an event are the handlers of navigation
    waits, an event of that name takes every one of them out of the Set,
    those of waits that have timed out among them, and resolves each of
    their promises that was pending; no other promise is settled, no
    timer is touched and no exception leaves [handleMessage]. *)
Theorem load_event_clears_navigation_handlers (data event : string)
    (params : option json) (w : World) :
  event_frame data = Some (event, params) →
  navigation_listeners event w →
  let w' := onmessage data w in
  (handleMessage data w).2 = None
  ∧ subscribers event w' = []
  ∧ (∀ f p, f ∈ subscribers event w →
       functions w !! f = Some (LoadHandler event p) →
       promises w !! p = Some Pending →
       promises w' !! p = Some (Fulfilled VUndefined))
  ∧ (∀ q, promises w' !! q = promises w !! q
          ∨ ∃ f, f ∈ subscribers event w
                 ∧ functions w !! f = Some (LoadHandler event q))
  ∧ timers w' = timers w.
Proof.
  intros Hevent Hhandlers.
  destruct (event_reaches_load_handlers data event params w Hevent Hhandlers)
    as (Hnone & Hcleared & Hresolved & Hother & Htimers & _).
  done.
Qed.

Lemma load_event_frame :
  event_frame load_event = Some ("Page.loadEventFired", Some (JObj [])).
Proof. by vm_compute. Qed.

Lemma three_timed_out_waits :
  navigation_listeners "Page.loadEventFired"
    (Nat.iter 3
       (timed_out_wait {| nav_timeout := 100; nav_waitUntil := load |})
       open_world).
Proof.
  intros f Hf. vm_compute in Hf.
  repeat (apply elem_of_cons in Hf as [->|Hf];
          [eexists; split; [vm_compute; reflexivity | vm_compute; lia] |]).
  by apply elem_of_nil in Hf.
Qed.

(** Three navigation waits time out and leave their handlers; the load
    event that comes next removes the three. *)
Lemma load_event_clears_navigation_handlers_witness :
  let leaked :=
    Nat.iter 3
      (timed_out_wait {| nav_timeout := 100; nav_waitUntil := load |})
      open_world in
  listener_count "Page.loadEventFired" leaked = 3%nat
  ∧ subscribers "Page.loadEventFired" (onmessage load_event leaked) = [].
Proof.
  split; [reflexivity |].
  by destruct (load_event_clears_navigation_handlers load_event
                 "Page.loadEventFired" (Some (JObj [])) _ load_event_frame
                 three_timed_out_waits) as (_ & Hcleared & _).
Defined.

(** ** Page: a navigation wait that sees its event *)

Lemma waitForNavigation_started options w :
  let event := eventName options in
  let started := waitForNavigation options w in
  race_load started.1 = length (promises w)
  ∧ race_timeout started.1 = S (length (promises w))
  ∧ race_timer started.1 = next_timer w
  ∧ functions started.2
    = functions w ++ [LoadHandler event (length (promises w))]
  ∧ promises started.2 = promises w ++ [Pending; Pending]
  ∧ subscribers event started.2
    = set_add (length (functions w)) (subscribers event w)
  ∧ timers started.2
    = <[next_timer w :=
          (RejectAfter (S (length (promises w)))
             (Error (navigation_timeout (nav_timeout options))),
           nav_timeout options)]> (timers w).
Proof.
  simpl. unfold waitForNavigation, loadPromise, timeoutPromise. simpl.
  unfold subscribers, on. simpl. rewrite lookup_insert_eq.
  rewrite length_app, Nat.add_1_r, <- app_assoc. by simpl.
Qed.

(** X7.  A navigation wait whose event comes returns: the race is won by
    the load promise, no handler is left subscribed, and the timer is
    cleared, so that it does not fire and the timeout promise stays
    pending. *)
Theorem navigation_wait_returns_on_its_event (options : NavigateOptions)
    (data : string) (params : option json) (w : World) :
  event_frame data = Some (eventName options, params) →
  navigation_listeners (eventName options) w →
  let started := waitForNavigation options w in
  let w1 := onmessage data started.2 in
  let w2 := clearTimeout (race_timer started.1) w1 in
  after_race started.1 started.2 = Suspended
  ∧ after_race started.1 w1 = Returns () w2
  ∧ subscribers (eventName options) w2 = []
  ∧ timers w2 !! race_timer started.1 = None
  ∧ fire_timer (race_timer started.1) w2 = w2
  ∧ promises w2 !! race_timeout started.1 = Some Pending.
Proof.
  intros Hevent Hhandlers started w1 w2.
  destruct (waitForNavigation_started options w)
    as (Hload & Htimeout & Htimer & Hfunctions & Hpromises & Hsubs & Htimers).
  fold started in Hload, Htimeout, Htimer, Hfunctions, Hpromises, Hsubs,
    Htimers.
  assert (length (functions w) ∈ subscribers (eventName options) started.2)
    as Hnew.
  { rewrite Hsubs. unfold set_add. case_decide; [done |].
    apply elem_of_app. right. by apply list_elem_of_singleton. }
  assert (∀ f, f ∈ subscribers (eventName options) started.2 →
            ∃ p, functions started.2 !! f
                 = Some (LoadHandler (eventName options) p)
                 ∧ (p ≤ length (promises w))%nat) as Hbounded.
  { intros f. rewrite Hsubs, Hfunctions. unfold set_add.
    assert (f ∈ subscribers (eventName options) w →
            ∃ p, (functions w
                  ++ [LoadHandler (eventName options) (length (promises w))])
                 !! f = Some (LoadHandler (eventName options) p)
                 ∧ (p ≤ length (promises w))%nat) as Hold.
    { intros Hold. destruct (Hhandlers f Hold) as (p & Hp & Hlt).
      exists p. split; [by apply lookup_app_l_Some | lia]. }
    case_decide as Hin; [done |].
    intros [Hin'|Heq%list_elem_of_singleton]%elem_of_app; [by apply Hold |].
    subst f. eexists. by rewrite snoc_lookup. }
  assert (navigation_listeners (eventName options) started.2) as Hstarted.
  { intros f Hf. destruct (Hbounded f Hf) as (p & Hp & Hle).
    exists p. split; [done |]. rewrite Hpromises, length_app. simpl. lia. }
  destruct (event_reaches_load_handlers data (eventName options) params
              started.2 Hevent Hstarted)
    as (_ & Hcleared & Hresolved & Hother & Htimers1 & _).
  fold w1 in Hcleared, Hresolved, Hother, Htimers1.
  assert (promises started.2 !! race_load started.1 = Some Pending) as Hlp.
  { rewrite Hpromises, Hload. by rewrite lookup_app_r, Nat.sub_diag. }
  assert (promises started.2 !! race_timeout started.1 = Some Pending) as Htp.
  { rewrite Hpromises, Htimeout. rewrite lookup_app_r by lia.
    by replace (S (length (promises w)) - length (promises w))%nat
      with 1%nat by lia. }
  assert (promises w1 !! race_load started.1 = Some (Fulfilled VUndefined))
    as Hwon.
  { apply (Hresolved (length (functions w))); [done | | done].
    rewrite Hfunctions, Hload. by rewrite snoc_lookup. }
  assert (promises w1 !! race_timeout started.1 = Some Pending) as Hquiet.
  { destruct (Hother (race_timeout started.1)) as [Hsame|(f & Hf & Hq)];
      [by rewrite Hsame |].
    destruct (Hbounded f Hf) as (p & Hp & Hle).
    assert (p = race_timeout started.1) by congruence. lia. }
  split; [|split; [|split; [|split; [|split]]]].
  - unfold after_race, raced. by rewrite Hlp, Htp.
  - unfold after_race, raced. by rewrite Hwon.
  - done.
  - unfold w2, clearTimeout. simpl. by rewrite lookup_delete_eq.
  - unfold w2, fire_timer, clearTimeout. simpl. by rewrite lookup_delete_eq.
  - done.
Qed.

Lemma open_world_navigation event : navigation_listeners event open_world.
Proof. intros f Hf. vm_compute in Hf. by apply elem_of_nil in Hf. Qed.

Lemma navigation_wait_returns_on_its_event_witness :
  let started := waitForNavigation default_options open_world in
  let w1 := onmessage load_event started.2 in
  after_race started.1 w1
  = Returns () (clearTimeout (race_timer started.1) w1)
  ∧ subscribers "Page.loadEventFired"
      (clearTimeout (race_timer started.1) w1) = [].
Proof.
  destruct (navigation_wait_returns_on_its_event default_options load_event
              (Some (JObj [])) open_world load_event_frame
              (open_world_navigation _))
    as (_ & Hreturns & Hcleared & _).
  split; [exact Hreturns | exact Hcleared].
Defined.

(** ** Screencast: the frames of a recording *)

Local Arguments object_of : simpl never.

Lemma recording_frame h t data shot w :
  recording_with h w →
  screencast_frame_of data = Some shot →
  let w' := onmessage data (set_now t w) in
  recording_with h w'
  ∧ frames w' = frames w ++ [stored t shot]
  ∧ sent w' = sent w ++ numbered (id_ w) [ack_call shot]
  ∧ id_ w' = id_ w + 1.
Proof.
  intros (Hrecording & Hready & Hterminated & Hsubs & Hh) Hshot.
  unfold screencast_frame_of in Hshot.
  destruct (event_frame data) as [[name [ps|]]|] eqn:Hevent; try done.
  destruct (String.eqb name "Page.screencastFrame") eqn:Hname; [|done].
  apply String.eqb_eq in Hname. subst name.
  destruct (get "data" ps) as [[| | |text| |]|] eqn:Hdata; try done.
  injection Hshot as <-.
  simpl. unfold onmessage.
  rewrite (handleMessage_event data _ _ _ Hevent).
  assert (subscribers "Page.screencastFrame" (set_now t w) = [h]) as Hsubs'
    by done.
  rewrite Hsubs'. unfold for_of.
  fold (subscribers "Page.screencastFrame" (set_now t w)).
  rewrite Hsubs'. rewrite decide_True by (by left).
  unfold invoke. simpl. rewrite Hh, Hrecording.
  assert (object_of (Some ps) = Some ps) as ->.
  { by destruct ps. }
  rewrite Hdata. simpl.
  rewrite send_opened by done. simpl.
  unfold ws_send. simpl. rewrite Hterminated. simpl.
  unfold recording_with, subscribers. simpl.
  fold (subscribers "Page.screencastFrame" w). by rewrite Hsubs.
Qed.

Lemma recording_reply h t data w :
  recording_with h w →
  is_Some (frame_id data) →
  let w' := onmessage data (set_now t w) in
  recording_with h w'
  ∧ frames w' = frames w ∧ sent w' = sent w ∧ id_ w' = id_ w.
Proof.
  intros (Hrecording & Hready & Hterminated & Hsubs & Hh) [id Hid].
  simpl. unfold onmessage. rewrite (handleMessage_reply data id) by done.
  unfold recording_with, subscribers.
  destruct (callbacks_get id (set_now t w)) as [[k p]|]; simpl.
  - rewrite settle_eq. simpl. fold (subscribers "Page.screencastFrame" w).
    by rewrite Hsubs.
  - fold (subscribers "Page.screencastFrame" w). by rewrite Hsubs.
Qed.

Lemma recording_arrivals h arrivals w :
  recording_with h w →
  Forall (λ arrival, is_Some (screencast_frame_of arrival.2)
                     ∨ is_Some (frame_id arrival.2)) arrivals →
  let w' := arrive arrivals w in
  recording_with h w'
  ∧ frames w' = frames w ++ ((λ s, stored s.1 s.2) <$> shots arrivals)
  ∧ sent w'
    = sent w ++ numbered (id_ w) (ack_call <$> (shots arrivals).*2).
Proof.
  revert w. induction arrivals as [|[t data] arrivals IH];
    intros w Hrec Harrivals.
  - simpl. by rewrite !app_nil_r.
  - apply Forall_cons in Harrivals as [Hfirst Harrivals]. simpl in Hfirst.
    unfold arrive. simpl. fold (arrive arrivals (onmessage data (set_now t w))).
    unfold shots. simpl. fold (shots arrivals).
    destruct (screencast_frame_of data) as [shot|] eqn:Hshot; simpl.
    + destruct (recording_frame h t data shot w Hrec Hshot)
        as (Hrec1 & Hframes & Hsent & Hid).
      destruct (IH _ Hrec1 Harrivals) as (Hrec' & -> & ->).
      split; [done |]. rewrite Hframes, Hsent, Hid, <- !app_assoc.
      done.
    + destruct Hfirst as [[? [=]]|Hreply].
      destruct (recording_reply h t data w Hrec Hreply)
        as (Hrec1 & Hframes & Hsent & Hid).
      destruct (IH _ Hrec1 Harrivals) as (Hrec' & -> & ->).
      split; [done |]. by rewrite Hframes, Hsent, Hid.
Qed.

(** X8.  A recording stores the frames in the order in which they
    arrive, each with the time of its arrival, and acknowledges each with
    the sessionId it carried: after [start()], the frames held are those
    of the [Page.screencastFrame] events received, [frameCount()] is
    their number, and what has been written to the socket is the start
    command and one acknowledgement for each frame, numbered in that
    order.  Replies that arrive in between change none of this. *)
Theorem recording_stores_the_frames_in_order
    (options : list (string * option json)) (arrivals : list (Z * string))
    (w : World) :
  recording w = false → ready w = Opened → terminated w = false →
  subscribers "Page.screencastFrame" w = [] →
  Forall (λ arrival, is_Some (screencast_frame_of arrival.2)
                     ∨ is_Some (frame_id arrival.2)) arrivals →
  let w' := arrive arrivals (start options w).2 in
  frames w' = (λ s, stored s.1 s.2) <$> shots arrivals
  ∧ (frameCount w').1 = length (shots arrivals)
  ∧ sent w'
    = sent w ++ numbered (id_ w)
                  (("Page.startScreencast", options)
                   :: (ack_call <$> (shots arrivals).*2))
  ∧ (isRecording w').1 = true.
Proof.
  intros Hrecording Hready Hterminated Hsubs Harrivals w'.
  assert (recording_with (length (functions w)) (start options w).2
          ∧ frames (start options w).2 = []
          ∧ sent (start options w).2
            = sent w ++ numbered (id_ w) [("Page.startScreencast", options)]
          ∧ id_ (start options w).2 = id_ w + 1)
    as (Hrec & Hframes & Hsent & Hid).
  { unfold start. rewrite Hrecording. simpl.
    rewrite send_opened by done. simpl.
    unfold ws_send. simpl. rewrite Hterminated. simpl.
    unfold recording_with, subscribers, on. simpl.
    rewrite lookup_insert_eq. simpl.
    fold (subscribers "Page.screencastFrame" w). rewrite Hsubs.
    rewrite snoc_lookup. done. }
  destruct (recording_arrivals _ arrivals _ Hrec Harrivals)
    as ((Hrec' & _) & Hframes' & Hsent').
  fold w' in Hrec', Hframes', Hsent'.
  split; [by rewrite Hframes', Hframes |].
  split.
  { unfold frameCount. simpl. rewrite Hframes', Hframes. simpl.
    by rewrite length_fmap. }
  split; [|done].
  rewrite Hsent', Hsent, Hid. simpl. by rewrite <- app_assoc.
Qed.

(** Two frames arrive, and between them the reply to the start
    command. *)
Lemma recording_stores_the_frames_in_order_witness :
  let w' :=
    arrive [(1000, screencast_event "aGVsbG8=" "7"); (1010, reply_result "1");
            (1040, screencast_event "d29ybGQ=" "8")]
      (start [] open_world).2 in
  frames w'
  = [ {| frame_data := "aGVsbG8="; frame_timestamp := 1000;
         frame_metadata := Some (JObj []) |};
      {| frame_data := "d29ybGQ="; frame_timestamp := 1040;
         frame_metadata := Some (JObj []) |} ]
  ∧ sent w'
    = [ {| out_id := 1; out_method := "Page.startScreencast";
           out_params := [] |};
        {| out_id := 2; out_method := "Page.screencastFrameAck";
           out_params := [("sessionId", Some (JNum 7 0))] |};
        {| out_id := 3; out_method := "Page.screencastFrameAck";
           out_params := [("sessionId", Some (JNum 8 0))] |} ].
Proof.
  destruct (recording_stores_the_frames_in_order []
              [(1000, screencast_event "aGVsbG8=" "7");
               (1010, reply_result "1");
               (1040, screencast_event "d29ybGQ=" "8")]
              open_world eq_refl eq_refl eq_refl eq_refl)
    as (Hframes & _ & Hsent & _).
  { apply Forall_cons. split; [left; vm_compute; eauto |].
    apply Forall_cons. split; [right; vm_compute; eauto |].
    apply Forall_cons. split; [left; vm_compute; eauto |].
    apply Forall_nil_2. }
  split; [exact Hframes | exact Hsent].
Defined.

(** ** CDPSession: a call made after [close()] *)










